(** * musicbot: the playback queue and state machine of [src/musicPlayer.ts]

    A shallow embedding of the [MusicPlayer] class.  The fields of the class
    are a record, every method and event listener is a function on that
    record, and the places where an [async] method suspends are points where
    the function stops and a later event resumes it. *)

From Stdlib Require Import List Ascii String Bool Arith Lia DecimalString.
Import ListNotations.
Open Scope string_scope.
Open Scope nat_scope.
Open Scope list_scope.

Set Implicit Arguments.

(** ** Data model *)

(** [private repeat: 'off' | 'single' | 'all'] *)
Inductive RepeatMode : Type := off | single | all.

Definition RepeatMode_eqb (a b : RepeatMode) : bool :=
  match a, b with
  | off, off | single, single | all, all => true
  | _, _ => false
  end.

(** [interface QueueItem].  At run time the fields of a JavaScript object may
    be missing: [{ ...current }] with [current] undefined is the object with
    no field at all, so every field is an [option]. *)
Record QueueItem : Type := mkQueueItem {
  title : option string;
  url : option string;
  duration : option string;
  thumbnail : option string;
  filePath : option string
}.

(** [{}] *)
Definition emptyObject : QueueItem := mkQueueItem None None None None None.

(** [{ ...current }], where [None] is [undefined] *)
Definition spread (current : option QueueItem) : QueueItem :=
  match current with
  | Some c => mkQueueItem (title c) (url c) (duration c) (thumbnail c) (filePath c)
  | None => emptyObject
  end.

Definition QueueItem_eq_dec (a b : QueueItem) : {a = b} + {a <> b}.
Proof. repeat decide equality. Defined.

(** [AudioPlayerStatus] and [VoiceConnectionStatus] of the voice library *)
Inductive AudioPlayerStatus : Type := Idle | Buffering | Playing | Paused | AutoPaused.

Inductive VoiceConnectionStatus : Type :=
  Signalling | Connecting | Ready | Disconnected | Destroyed.

Definition AudioPlayerStatus_eqb (a b : AudioPlayerStatus) : bool :=
  match a, b with
  | Idle, Idle | Buffering, Buffering | Playing, Playing
  | Paused, Paused | AutoPaused, AutoPaused => true
  | _, _ => false
  end.

(** ** Array operations *)

(** [Array.prototype.shift]: the removed head ([None] on an empty array) and
    the array that is left *)
Definition shift {A : Type} (q : list A) : option A * list A :=
  match q with
  | [] => (None, [])
  | x :: rest => (Some x, rest)
  end.

(** [Array.prototype.push] *)
Definition push {A : Type} (q items : list A) : list A := q ++ items.

(** ** The download pipeline: [downloadVideo] *)

Module Pipeline.

(** [interface NodeError extends Error] *)
Record NodeError : Type := mkNodeError {
  message : string;
  code : option string
}.

(** The only stream the promise is ever resolved with: [ffmpeg.stdout]. *)
Inductive Stream : Type := ffmpeg_stdout.

(** A promise settles once: [resolve] and [reject] do nothing to a promise
    that is no longer pending. *)
Inductive Promise : Type :=
| Pending
| Fulfilled (s : Stream)
| Rejected (e : NodeError).

Definition resolve (s : Stream) (pr : Promise) : Promise :=
  match pr with Pending => Fulfilled s | _ => pr end.

Definition reject (e : NodeError) (pr : Promise) : Promise :=
  match pr with Pending => Rejected e | _ => pr end.

(** A child process as the operating system has it.  [spawn] returns the
    handle at once; a process that could not be started reports it later
    through its ['error'] event.  [Killed] is what a call of [kill()] makes
    of it. *)
Inductive Process : Type := NotSpawned | Spawned | Failed | Closed | Killed.

(** [cliProgress.SingleBar] *)
Inductive ProgressBar : Type := Created | Started (value : nat) | Stopped.

Record Pipe : Type := mkPipe {
  source : option string;       (* the [url] argument, last argument of yt-dlp *)
  promise : Promise;
  ytdlp : Process;
  ffmpeg : Process;
  progressBar : ProgressBar;
  piped : bool                  (* [ytdlp.stdout.pipe(ffmpeg.stdin)] was done *)
}.

Definition set_promise (v : Promise) (s : Pipe) : Pipe :=
  mkPipe (source s) v (ytdlp s) (ffmpeg s) (progressBar s) (piped s).
Definition set_ytdlp (v : Process) (s : Pipe) : Pipe :=
  mkPipe (source s) (promise s) v (ffmpeg s) (progressBar s) (piped s).
Definition set_ffmpeg (v : Process) (s : Pipe) : Pipe :=
  mkPipe (source s) (promise s) (ytdlp s) v (progressBar s) (piped s).
Definition set_progressBar (v : ProgressBar) (s : Pipe) : Pipe :=
  mkPipe (source s) (promise s) (ytdlp s) (ffmpeg s) v (piped s).
Definition set_piped (v : bool) (s : Pipe) : Pipe :=
  mkPipe (source s) (promise s) (ytdlp s) (ffmpeg s) (progressBar s) v.

(** Whether the two calls of [spawn] throw. *)
Record Spawn : Type := mkSpawn {
  ytdlp_throws : option NodeError;
  ffmpeg_throws : option NodeError
}.

(** The executor of the promise of [downloadVideo]: the [try] block runs to
    [resolve(ffmpeg.stdout)] unless a [spawn] throws, which the [catch]
    turns into [reject(error)]. *)
Definition downloadVideo (url : option string) (sp : Spawn) : Pipe :=
  let s0 := mkPipe url Pending NotSpawned NotSpawned Created false in
  match ytdlp_throws sp with
  | Some e => set_promise (reject e (promise s0)) s0
  | None =>
      let s1 := set_ytdlp Spawned s0 in
      match ffmpeg_throws sp with
      | Some e => set_promise (reject e (promise s1)) s1
      | None =>
          let s2 := set_ffmpeg Spawned s1 in
          let s3 := set_progressBar (Started 0) s2 in
          let s4 := set_piped true s3 in
          set_promise (resolve ffmpeg_stdout (promise s4)) s4
      end
  end.

(** What the child processes emit once the executor has returned. *)
Inductive Event : Type :=
| ytdlp_progress (percent : nat)   (* a [[download] NN%] line on stderr *)
| ytdlp_error (e : NodeError)
| ffmpeg_error (e : NodeError)
| ffmpeg_close.

(** [progressBar.update]: a bar that was stopped stays stopped. *)
Definition update (percent : nat) (b : ProgressBar) : ProgressBar :=
  match b with Started _ => Started percent | _ => b end.

(** The process that emits an event. *)
Definition emitter (ev : Event) (s : Pipe) : Process :=
  match ev with
  | ytdlp_progress _ | ytdlp_error _ => ytdlp s
  | ffmpeg_error _ | ffmpeg_close => ffmpeg s
  end.

(** What an event tells of its process: the process of an ['error'] or
    ['close'] event is gone by itself. *)
Definition emit (ev : Event) (s : Pipe) : Pipe :=
  match ev with
  | ytdlp_progress _ => s
  | ytdlp_error _ => set_ytdlp Failed s
  | ffmpeg_error _ => set_ffmpeg Failed s
  | ffmpeg_close => set_ffmpeg Closed s
  end.

(** The four listeners of the executor (lines 220-243).  None of them
    calls [kill()] on the other process. *)
Definition listener (ev : Event) (s : Pipe) : Pipe :=
  match ev with
  | ytdlp_progress n => set_progressBar (update n (progressBar s)) s
  | ytdlp_error e | ffmpeg_error e =>
      let s1 := set_progressBar Stopped s in
      set_promise (reject e (promise s1)) s1
  | ffmpeg_close => set_progressBar Stopped s
  end.

(** The executor registers the listeners after both calls of [spawn] and
    before [ytdlp.stdout.pipe(ffmpeg.stdin)], in straight-line code: they
    exist exactly when the pipe was connected.  After a [spawn] that threw
    there is no listener, and the bar was never started. *)
Definition listening (s : Pipe) : bool := piped s.

(** An event of a process that was spawned.  Without a listener only the
    process changes (Node raises an ['error'] event that finds no listener
    as an uncaught exception; the pipe is not touched by it). *)
Definition handle (ev : Event) (s : Pipe) : Pipe :=
  match emitter ev s with
  | NotSpawned => s
  | _ =>
      let s1 := emit ev s in
      if listening s1 then listener ev s1 else s1
  end.

Definition handle_all (evs : list Event) (s : Pipe) : Pipe :=
  fold_left (fun acc ev => handle ev acc) evs s.

(** A process that still runs. *)
Definition running (pr : Process) : bool :=
  match pr with Spawned => true | _ => false end.

(** The error of the first [spawn] that throws, if one does. *)
Definition first_throw (sp : Spawn) : option NodeError :=
  match ytdlp_throws sp with
  | Some e => Some e
  | None => ffmpeg_throws sp
  end.

End Pipeline.

(** What a [try] block of the class can throw. *)
Inductive Error : Type :=
| TypeError          (* a property of [undefined] is read *)
| DownloadError (e : Pipeline.NodeError)   (* the promise of [downloadVideo] is rejected *)
| NotConnected       (* [new Error('接続が確立されていません')] *)
| NotReady.          (* [entersState] rejects, or the resource cannot be played *)

(** ** The player *)

Record MusicPlayer : Type := mkMusicPlayer {
  (* fields of the class *)
  queue : list QueueItem;
  connection : option VoiceConnectionStatus;
  downloading : bool;
  currentlyPlaying : option QueueItem;
  repeat : RepeatMode;
  (* [audioPlayer]: its status, whether [stop()] was asked of it, and the
     [onStateChange] listeners that [playNext] added, each with the [current]
     it closes over, in the order of registration *)
  status : AudioPlayerStatus;
  stopRequested : bool;
  listeners : list QueueItem;
  (* the run time: delays of the pending [setTimeout(() => this.playNext(), ms)];
     calls of [playNext] suspended at [await this.downloadVideo(...)] and at
     [await entersState(...)]; the [url] of every [downloadVideo] call so far;
     every path given to [unlinkSync] so far *)
  timers : list nat;
  inflight : list QueueItem;
  awaiting : list QueueItem;
  invoked : list (option string);
  unlinked : list string
}.

Definition set_queue (v : list QueueItem) (p : MusicPlayer) : MusicPlayer :=
  mkMusicPlayer v (connection p) (downloading p) (currentlyPlaying p) (repeat p)
    (status p) (stopRequested p) (listeners p)
    (timers p) (inflight p) (awaiting p) (invoked p) (unlinked p).

Definition set_connection (v : option VoiceConnectionStatus) (p : MusicPlayer) : MusicPlayer :=
  mkMusicPlayer (queue p) v (downloading p) (currentlyPlaying p) (repeat p)
    (status p) (stopRequested p) (listeners p)
    (timers p) (inflight p) (awaiting p) (invoked p) (unlinked p).

Definition set_downloading (v : bool) (p : MusicPlayer) : MusicPlayer :=
  mkMusicPlayer (queue p) (connection p) v (currentlyPlaying p) (repeat p)
    (status p) (stopRequested p) (listeners p)
    (timers p) (inflight p) (awaiting p) (invoked p) (unlinked p).

Definition set_currentlyPlaying (v : option QueueItem) (p : MusicPlayer) : MusicPlayer :=
  mkMusicPlayer (queue p) (connection p) (downloading p) v (repeat p)
    (status p) (stopRequested p) (listeners p)
    (timers p) (inflight p) (awaiting p) (invoked p) (unlinked p).

Definition set_repeat (v : RepeatMode) (p : MusicPlayer) : MusicPlayer :=
  mkMusicPlayer (queue p) (connection p) (downloading p) (currentlyPlaying p) v
    (status p) (stopRequested p) (listeners p)
    (timers p) (inflight p) (awaiting p) (invoked p) (unlinked p).

Definition set_status (v : AudioPlayerStatus) (p : MusicPlayer) : MusicPlayer :=
  mkMusicPlayer (queue p) (connection p) (downloading p) (currentlyPlaying p) (repeat p)
    v (stopRequested p) (listeners p)
    (timers p) (inflight p) (awaiting p) (invoked p) (unlinked p).

Definition set_stopRequested (v : bool) (p : MusicPlayer) : MusicPlayer :=
  mkMusicPlayer (queue p) (connection p) (downloading p) (currentlyPlaying p) (repeat p)
    (status p) v (listeners p)
    (timers p) (inflight p) (awaiting p) (invoked p) (unlinked p).

Definition set_listeners (v : list QueueItem) (p : MusicPlayer) : MusicPlayer :=
  mkMusicPlayer (queue p) (connection p) (downloading p) (currentlyPlaying p) (repeat p)
    (status p) (stopRequested p) v
    (timers p) (inflight p) (awaiting p) (invoked p) (unlinked p).

Definition set_timers (v : list nat) (p : MusicPlayer) : MusicPlayer :=
  mkMusicPlayer (queue p) (connection p) (downloading p) (currentlyPlaying p) (repeat p)
    (status p) (stopRequested p) (listeners p)
    v (inflight p) (awaiting p) (invoked p) (unlinked p).

Definition set_inflight (v : list QueueItem) (p : MusicPlayer) : MusicPlayer :=
  mkMusicPlayer (queue p) (connection p) (downloading p) (currentlyPlaying p) (repeat p)
    (status p) (stopRequested p) (listeners p)
    (timers p) v (awaiting p) (invoked p) (unlinked p).

Definition set_awaiting (v : list QueueItem) (p : MusicPlayer) : MusicPlayer :=
  mkMusicPlayer (queue p) (connection p) (downloading p) (currentlyPlaying p) (repeat p)
    (status p) (stopRequested p) (listeners p)
    (timers p) (inflight p) v (invoked p) (unlinked p).

Definition set_invoked (v : list (option string)) (p : MusicPlayer) : MusicPlayer :=
  mkMusicPlayer (queue p) (connection p) (downloading p) (currentlyPlaying p) (repeat p)
    (status p) (stopRequested p) (listeners p)
    (timers p) (inflight p) (awaiting p) v (unlinked p).

Definition set_unlinked (v : list string) (p : MusicPlayer) : MusicPlayer :=
  mkMusicPlayer (queue p) (connection p) (downloading p) (currentlyPlaying p) (repeat p)
    (status p) (stopRequested p) (listeners p)
    (timers p) (inflight p) (awaiting p) (invoked p) v.

(** [setTimeout(() => this.playNext(), ms)] *)
Definition setTimeout (ms : nat) (p : MusicPlayer) : MusicPlayer :=
  set_timers (timers p ++ [ms]) p.

(** The player that the constructor leaves. *)
Definition init : MusicPlayer :=
  mkMusicPlayer [] None false None off Idle false [] [] [] [] [] [].

(** ** [playNext] *)

(** How the synchronous part of a [playNext] call ends. *)
Inductive Outcome : Type :=
| Returned                   (* the early [return] of the guard *)
| Caught (e : Error)         (* the [catch] block ran *)
| Suspended.                 (* at [await this.downloadVideo(current.url)] *)

(** The [catch] block of [playNext]. *)
Definition playNext_catch (p : MusicPlayer) : MusicPlayer :=
  let p1 := set_currentlyPlaying None p in
  let p2 := set_queue (snd (shift (queue p1))) p1 in
  let p3 := set_downloading false p2 in
  setTimeout 5000 p3.

(** The dequeue of [playNext]: the [let current] and the [if]/[else] that
    assigns it.  [None] is [undefined], which [shift()!] yields on an empty
    queue. *)
Definition dequeue (p : MusicPlayer) : option QueueItem * MusicPlayer :=
  match repeat p, currentlyPlaying p with
  | single, Some c => (Some c, p)
  | _, _ =>
      let (current, rest) := shift (queue p) in
      let p1 := set_queue rest p in
      match repeat p with
      | all => (current, set_queue (push (queue p1) [spread current]) p1)
      | _ => (current, p1)
      end
  end.

(** [playNext] from its call to its first suspension.  [downloadVideo] is
    called with [current.url]; the promise it returns is settled by the
    time it is returned (the executor ends in [resolve] or, from its own
    [catch], in [reject]), so the call is in flight until the continuation
    of the [await] runs. *)
Definition playNext (p : MusicPlayer) : MusicPlayer * Outcome :=
  if (List.length (queue p) =? 0) && negb (RepeatMode_eqb (repeat p) all) then (p, Returned)
  else
    let (current, p1) := dequeue p in
    let p2 := set_downloading true p1 in
    match current with
    | None => (playNext_catch p2, Caught TypeError)
    | Some c =>
        (set_inflight (inflight p2 ++ [c]) (set_invoked (invoked p2 ++ [url c]) p2),
         Suspended)
    end.

(** The continuation of [await this.downloadVideo(current.url)] for the call
    that is in flight, given the promise as [downloadVideo] returned it. *)
Definition playNext_downloaded (pr : Pipeline.Promise) (p : MusicPlayer)
  : option (MusicPlayer * Outcome) :=
  match inflight p with
  | [] => None
  | current :: rest =>
      let p0 := set_inflight rest p in
      match pr with
      | Pipeline.Pending => None
      | Pipeline.Rejected e => Some (playNext_catch p0, Caught (DownloadError e))
      | Pipeline.Fulfilled _ =>
          let p1 := set_downloading false p0 in
          match connection p1 with
          | None => Some (playNext_catch p1, Caught NotConnected)
          | Some _ => Some (set_awaiting (awaiting p1 ++ [current]) p1, Suspended)
          end
      end
  end.

Definition remove_nth {A : Type} (i : nat) (l : list A) : list A :=
  firstn i l ++ skipn (S i) l.

(** [removeListener]: the first listener that closes over [c] *)
Fixpoint remove_first (c : QueueItem) (l : list QueueItem) : list QueueItem :=
  match l with
  | [] => []
  | x :: rest => if QueueItem_eq_dec c x then rest else x :: remove_first c rest
  end.

(** The [onStateChange] listener of a [playNext] call whose [current] is [c]. *)
Definition onStateChange (c : QueueItem) (oldS newS : AudioPlayerStatus)
    (p : MusicPlayer) : MusicPlayer :=
  match newS with
  | Playing => p
  | Idle =>
      if negb (AudioPlayerStatus_eqb oldS Idle) then
        let p1 := set_listeners (remove_first c (listeners p)) p in
        let p2 := set_queue (snd (shift (queue p1))) p1 in
        setTimeout 1000 p2
      else p
  | _ => p
  end.

(** JavaScript truthiness of [finished?.filePath] *)
Definition truthy_path (finished : option QueueItem) : option string :=
  match finished with
  | Some f =>
      match filePath f with
      | Some path => if String.eqb path "" then None else Some path
      | None => None
      end
  | None => None
  end.

(** The listener of [AudioPlayerStatus.Idle] that the constructor adds. *)
Definition onIdle (p : MusicPlayer) : MusicPlayer :=
  let (finished, rest) := shift (queue p) in
  let p1 := set_queue rest p in
  let p2 := match truthy_path finished with
            | Some path => set_unlinked (unlinked p1 ++ [path]) p1
            | None => p1
            end in
  fst (playNext p2).

(** The listener of ['error'] that the constructor adds. *)
Definition onError (p : MusicPlayer) : MusicPlayer :=
  let p1 := set_queue (snd (shift (queue p))) p in
  setTimeout 1000 p1.

(** The state setter of the library's [AudioPlayer]: it emits ['stateChange']
    to the listeners present at that moment, in the order they were added
    (the logging listener of the constructor changes nothing), and then,
    when the status changed, the event named after the new status, for which
    only [Idle] has a listener. *)
Definition setState (newS : AudioPlayerStatus) (p : MusicPlayer) : MusicPlayer :=
  let oldS := status p in
  let p1 := set_status newS p in
  let p2 := fold_left (fun acc c => onStateChange c oldS newS acc) (listeners p1) p1 in
  if negb (AudioPlayerStatus_eqb oldS newS) then
    match newS with
    | Idle => onIdle p2
    | _ => p2
    end
  else p2.

(** [audioPlayer.play(resource)] with a new resource: the player buffers it,
    and a stop asked of the resource it replaces is forgotten. *)
Definition audioPlayer_play (p : MusicPlayer) : MusicPlayer :=
  setState Buffering (set_stopRequested false p).

(** The resource of the player ends, of itself or because it was asked to. *)
Definition audioPlayer_end (p : MusicPlayer) : MusicPlayer :=
  setState Idle (set_stopRequested false p).

(** [audioPlayer.stop()]: the resource is asked to end; the player becomes
    [Idle] in a later cycle. *)
Definition audioPlayer_stop (p : MusicPlayer) : MusicPlayer :=
  match status p with
  | Idle => p
  | _ => set_stopRequested true p
  end.

(** The continuation of [await entersState(this.connection, Ready, 30000)]
    for the [i]-th call waiting there; [ok] is false when the wait is
    rejected. *)
Definition playNext_ready (i : nat) (ok : bool) (p : MusicPlayer)
  : option (MusicPlayer * Outcome) :=
  match nth_error (awaiting p) i with
  | None => None
  | Some current =>
      let p0 := set_awaiting (remove_nth i (awaiting p)) p in
      if ok then
        let p1 := audioPlayer_play p0 in
        let p2 := set_currentlyPlaying (Some current) p1 in
        Some (set_listeners (listeners p2 ++ [current]) p2, Suspended)
      else Some (playNext_catch p0, Caught NotReady)
  end.

(** ** The other methods *)

Definition stop (p : MusicPlayer) : MusicPlayer :=
  let p1 := set_queue [] p in
  let p2 := audioPlayer_stop p1 in
  set_connection None p2.

Definition disconnect (p : MusicPlayer) : MusicPlayer := stop p.

Definition skip (p : MusicPlayer) : MusicPlayer := audioPlayer_stop p.

Definition setRepeat (mode : RepeatMode) (p : MusicPlayer) : MusicPlayer :=
  set_repeat mode p.

(** [ensureConnection]; [ok] says whether the connection becomes [Ready]
    within the 30 seconds. *)
Definition ensureConnection (ok : bool) (p : MusicPlayer) : MusicPlayer * bool :=
  match connection p with
  | Some Ready => (p, true)
  | _ => if ok then (set_connection (Some Ready) p, true)
         else (set_connection None p, false)
  end.

(** The listener of [VoiceConnectionStatus.Disconnected]; [recovered] says
    whether the connection is signalling or connecting again within 5 seconds. *)
Definition onDisconnected (recovered : bool) (p : MusicPlayer) : MusicPlayer :=
  match connection p with
  | None => p
  | Some _ => if recovered then set_connection (Some Connecting) p
              else set_connection None p
  end.

(** [formatDuration], on a whole number of seconds that is not negative:
    what [Math.floor] makes of a duration that a resolver reports.  A
    missing duration ([NaN]) is outside this domain. *)
Definition padStart2 (s : string) : string :=
  if String.length s <? 2 then String.append "0" s else s.

Definition string_of_nat (n : nat) : string := NilEmpty.string_of_uint (Nat.to_uint n).

Definition formatDuration (seconds : nat) : string :=
  String.append (string_of_nat (seconds / 60))
    (String.append ":" (padStart2 (string_of_nat (seconds mod 60)))).

(** What the resolvers know of a track when they build its queue item. *)
Record Track : Type := mkTrack {
  t_title : string;
  t_url : string;
  t_seconds : nat;
  t_thumbnail : string
}.

(** The object literal of [handleYoutubeSingleVideo], [handleYoutubePlaylist]
    and [handleSpotifyUrl]: it has no [filePath]. *)
Definition itemOf (t : Track) : QueueItem :=
  mkQueueItem (Some (t_title t)) (Some (t_url t))
    (Some (formatDuration (t_seconds t))) (Some (t_thumbnail t)) None.

(** [this.queue.push(...items)] *)
Definition enqueue (ts : list Track) (p : MusicPlayer) : MusicPlayer :=
  set_queue (push (queue p) (map itemOf ts)) p.

(** The last statement of [play]. *)
Definition play_tail (p : MusicPlayer) : MusicPlayer :=
  if (List.length (queue p) =? 1) && negb (downloading p) then fst (playNext p) else p.

(** How the query of a [play] call resolved. *)
Inductive Resolved : Type :=
| SpotifyItems (items : list Track)
| YoutubePlaylist (playlistId : option string) (entries : list Track)
| YoutubeVideo (t : Track)
| Search (found : option Track).

(** [play], when nothing else happens while it waits.  [inVoice] is
    [member?.voice.channel]; [ok] is passed to [ensureConnection]. *)
Definition play (inVoice ok : bool) (r : Resolved) (p : MusicPlayer) : MusicPlayer :=
  if negb inVoice then p
  else
    let (p1, connected) := ensureConnection ok p in
    if negb connected then p1
    else
      match r with
      | SpotifyItems items =>
          if 0 <? List.length items then play_tail (enqueue items p1) else p1
      | YoutubePlaylist None _ => p1
      | YoutubePlaylist (Some _) entries =>
          play_tail (fold_left (fun acc t => enqueue [t] acc) entries p1)
      | YoutubeVideo t => play_tail (enqueue [t] p1)
      | Search None => p1
      | Search (Some t) => play_tail (enqueue [t] p1)
      end.

(** ** The event loop *)

(** What can happen to a player.  A task of the event loop runs to its end
    before the next one starts, and the continuations that became ready in
    it run before the next task.  The promise of [downloadVideo] is settled
    when [playNext] awaits it, so while a call is in flight only other
    continuations can run: the parts of a [play] call that follow one of
    its awaits.  Timers, events of the audio player and of the connection,
    and commands are tasks, and so is taken the continuation of
    [await entersState(...)], which waits for an event of the connection. *)
Inductive Event : Type :=
| EvEnsureConnection (ok : bool)         (* [play]: [ensureConnection] *)
| EvPush (ts : list Track)               (* [play]: a [queue.push] of a handler *)
| EvPlayTail                             (* [play]: its last statement *)
| EvSetRepeat (mode : RepeatMode)
| EvStop
| EvDisconnect
| EvSkip
| EvTimer (i : nat)                      (* the [i]-th pending timer fires *)
| EvReadable                             (* the buffered resource starts to play *)
| EvIdle                                 (* the resource ends: the track is completed *)
| EvError                                (* the audio player emits ['error'] *)
| EvDisconnected (recovered : bool)
| EvDownloaded (sp : Pipeline.Spawn)     (* continuation after [downloadVideo] *)
| EvReady (i : nat) (ok : bool).         (* continuation after [entersState] *)

Definition is_task (ev : Event) : bool :=
  match ev with
  | EvEnsureConnection _ | EvPush _ | EvPlayTail | EvDownloaded _ => false
  | _ => true
  end.

Definition no_inflight (p : MusicPlayer) : bool :=
  match inflight p with [] => true | _ => false end.

(** One step of the player; [None] when the event cannot happen. *)
Definition step (ev : Event) (p : MusicPlayer) : option MusicPlayer :=
  if is_task ev && negb (no_inflight p) then None
  else
    match ev with
    | EvEnsureConnection ok => Some (fst (ensureConnection ok p))
    | EvPush ts => Some (enqueue ts p)
    | EvPlayTail => Some (play_tail p)
    | EvSetRepeat mode => Some (setRepeat mode p)
    | EvStop => Some (stop p)
    | EvDisconnect => Some (disconnect p)
    | EvSkip => Some (skip p)
    | EvTimer i =>
        match nth_error (timers p) i with
        | Some _ => Some (fst (playNext (set_timers (remove_nth i (timers p)) p)))
        | None => None
        end
    | EvReadable =>
        match status p with
        | Buffering => Some (setState Playing p)
        | _ => None
        end
    | EvIdle =>
        match status p with
        | Idle => None
        | _ => Some (audioPlayer_end p)
        end
    | EvError =>
        match status p with
        | Idle => None
        | _ => Some (onError p)
        end
    | EvDisconnected recovered => Some (onDisconnected recovered p)
    | EvDownloaded sp =>
        match inflight p with
        | [] => None
        | current :: _ =>
            option_map fst
              (playNext_downloaded
                 (Pipeline.promise (Pipeline.downloadVideo (url current) sp)) p)
        end
    | EvReady i ok => option_map fst (playNext_ready i ok p)
    end.

(** A sequence of events, from left to right. *)
Fixpoint run (evs : list Event) (p : MusicPlayer) : option MusicPlayer :=
  match evs with
  | [] => Some p
  | ev :: rest =>
      match step ev p with
      | Some p' => run rest p'
      | None => None
      end
  end.

(** The states a player can be in. *)
Inductive reachable : MusicPlayer -> Prop :=
| reachable_init : reachable init
| reachable_step : forall ev p p',
    reachable p -> step ev p = Some p' -> reachable p'.

(** ** Replies of [nowPlaying] and [showQueue] *)

(** A template literal prints a missing field as [undefined]. *)
Definition js_string (o : option string) : string :=
  match o with
  | Some s => s
  | None => "undefined"
  end.

Inductive Reply : Type :=
| NothingPlaying                         (* [現在再生中の曲はありません。] *)
| NowPlayingEmbed (description thumbnail length : string)
| QueueIsEmpty                           (* [キューは空です。] *)
| QueueList (lines : list string).       (* the lines joined after [現在のキュー:] *)

Definition nowPlaying (p : MusicPlayer) : Reply :=
  match currentlyPlaying p with
  | None => NothingPlaying
  | Some c =>
      NowPlayingEmbed
        (String.append "["
           (String.append (js_string (title c))
              (String.append "]("
                 (String.append (js_string (url c)) ")"))))
        (js_string (thumbnail c))
        (js_string (duration c))
  end.

(** [this.queue.map((item, index) => `${index + 1}. ${item.title}`)] *)
Fixpoint queueLines (index : nat) (q : list QueueItem) : list string :=
  match q with
  | [] => []
  | item :: rest =>
      String.append (string_of_nat (index + 1))
        (String.append ". " (js_string (title item)))
        :: queueLines (S index) rest
  end.

Definition showQueue (p : MusicPlayer) : Reply :=
  if List.length (queue p) =? 0 then QueueIsEmpty
  else QueueList (queueLines 0 (queue p)).

(** ** Resolving a query *)

(** [String.prototype.includes] *)
Fixpoint includes (s sub : string) : bool :=
  if String.prefix sub s then true
  else
    match s with
    | EmptyString => false
    | String _ rest => includes rest sub
    end.

Definition isSpotifyUrl (url : string) : bool := includes url "spotify.com".

Definition isYoutubeUrl (url : string) : bool :=
  includes url "youtube.com" || includes url "youtu.be".

(** The branch of [play] that a query takes. *)
Inductive QueryKind : Type :=
| SpotifyQuery
| YoutubePlaylistQuery
| YoutubeVideoQuery
| SearchQuery.

Definition classify (query : string) : QueryKind :=
  if isSpotifyUrl query then SpotifyQuery
  else if isYoutubeUrl query then
    if includes query "list=" then YoutubePlaylistQuery else YoutubeVideoQuery
  else SearchQuery.

(** What an awaited call of an outside service gives. *)
Inductive Call (A : Type) : Type :=
| Throws
| Returns (a : A).
Arguments Throws {A}.
Arguments Returns {A} a.

(** JavaScript truthiness of a string that may be missing. *)
Definition truthy (o : option string) : option string :=
  match o with
  | Some s => if String.eqb s "" then None else Some s
  | None => None
  end.

(** What [youtubeDl.exec] resolves to in [findVideoWithYtDlp]: it throws, or
    gives something that is no string, or a string that [JSON.parse] rejects
    ([parsed] is [None]) or parses into an object whose [webpage_url] is
    given. *)
Inductive YtDlpSearch : Type :=
| ExecThrows
| NotAString
| Text (parsed : option (option string)).

Definition findVideoWithYtDlp (result : YtDlpSearch) : option string :=
  match result with
  | Text (Some webpage_url) => truthy webpage_url
  | _ => None
  end.

(** [findYoutubeVideo]: [api] is [searchResponse.data.items?.[0]?.id?.videoId]
    of the search call, or its throwing. *)
Definition findYoutubeVideo (api : Call (option string)) (fallback : YtDlpSearch)
  : option string :=
  match api with
  | Returns videoId =>
      match truthy videoId with
      | Some id => Some (String.append "https://www.youtube.com/watch?v=" id)
      | None => findVideoWithYtDlp fallback
      end
  | Throws => findVideoWithYtDlp fallback
  end.

(** One element of [playlist.body.tracks.items] of Spotify, with what the
    search for it gives. *)
Record SpotifyEntry : Type := mkSpotifyEntry {
  sp_track : bool;                 (* [track.track] is there *)
  sp_name : option string;         (* [trackData.name] *)
  sp_artist : option string;       (* [trackData.artists?.[0]?.name] *)
  sp_duration_ms : nat;
  sp_image : option string;        (* [trackData.album?.images?.[0]?.url] *)
  sp_api : Call (option string);
  sp_fallback : YtDlpSearch
}.

(** The body of the [for] loop of [handleSpotifyUrl]: [items] after the
    entry.  [continue] and a search without result leave it as it is. *)
Definition spotifyEntry (items : list Track) (e : SpotifyEntry) : list Track :=
  if negb (sp_track e) then items
  else
    match truthy (sp_name e), truthy (sp_artist e) with
    | Some name, Some artist =>
        match findYoutubeVideo (sp_api e) (sp_fallback e) with
        | Some videoUrl =>
            push items
              [mkTrack (String.append name (String.append " - " artist))
                 videoUrl (sp_duration_ms e / 1000)
                 (match truthy (sp_image e) with Some u => u | None => "" end)]
        | None => items
        end
    | _, _ => items
    end.

(** The playlist branch of [handleSpotifyUrl]: [getPlaylist] throws or gives
    the entries; an empty list throws as well. *)
Definition handleSpotifyPlaylist (playlist : Call (list SpotifyEntry))
  : Call (list Track) :=
  match playlist with
  | Throws => Throws
  | Returns [] => Throws
  | Returns tracks => Returns (fold_left spotifyEntry tracks [])
  end.

(** One element of [playlistResponse.data.items] of YouTube, with what
    [youtubeDl] gives for it: the duration in seconds, or its throwing. *)
Record PlaylistEntry : Type := mkPlaylistEntry {
  pe_videoId : option string;      (* [item.contentDetails?.videoId] *)
  pe_title : option string;        (* [item.snippet?.title] *)
  pe_thumbnail : option string;    (* [item.snippet?.thumbnails?.default?.url] *)
  pe_info : Call nat
}.

Definition playlistTrack (videoId : string) (e : PlaylistEntry) (seconds : nat) : Track :=
  mkTrack (match truthy (pe_title e) with Some t => t | None => "Unknown Title" end)
    (String.append "https://www.youtube.com/watch?v=" videoId)
    seconds
    (match truthy (pe_thumbnail e) with Some u => u | None => "" end).

(** The [for] loop of [handleYoutubePlaylist] on the entries that are left:
    the player after it, and whether it ran to its end ([false]: [youtubeDl]
    threw). *)
Fixpoint pushPlaylist (entries : list PlaylistEntry) (p : MusicPlayer)
  : MusicPlayer * bool :=
  match entries with
  | [] => (p, true)
  | e :: rest =>
      match truthy (pe_videoId e) with
      | None => pushPlaylist rest p
      | Some videoId =>
          match pe_info e with
          | Throws => (p, false)
          | Returns seconds => pushPlaylist rest (enqueue [playlistTrack videoId e seconds] p)
          end
      end
  end.

(** What [handleYoutubePlaylist] replies, if it does. *)
Inductive PlaylistReply : Type :=
| PlaylistEmptyOrPrivate
| PlaylistAdded (count : nat)     (* [プレイリストから${items.length}曲を追加しました！] *)
| PlaylistThrew.

Definition handleYoutubePlaylist (response : Call (list PlaylistEntry)) (p : MusicPlayer)
  : MusicPlayer * PlaylistReply :=
  match response with
  | Throws => (p, PlaylistThrew)
  | Returns [] => (p, PlaylistEmptyOrPrivate)
  | Returns items =>
      let (p1, completed) := pushPlaylist items p in
      if completed then (p1, PlaylistAdded (List.length items)) else (p1, PlaylistThrew)
  end.


(** ** The sessions of [index.ts] *)

(** [const musicPlayers = new Map<string, MusicPlayer>()]: the players by
    guild id, in the order they were created. *)
Definition Sessions : Type := list (string * MusicPlayer).

(** [Map.prototype.get] *)
Fixpoint sessions_get (guild : string) (m : Sessions) : option MusicPlayer :=
  match m with
  | [] => None
  | (g, p) :: rest => if String.eqb guild g then Some p else sessions_get guild rest
  end.

(** [Map.prototype.set]; it also stands for the changes that a method makes
    to the player object the map refers to. *)
Fixpoint sessions_set (guild : string) (p : MusicPlayer) (m : Sessions) : Sessions :=
  match m with
  | [] => [(guild, p)]
  | (g, q) :: rest =>
      if String.eqb guild g then (g, p) :: rest else (g, q) :: sessions_set guild p rest
  end.

(** The slash commands, with what the outside world answers to a [play]. *)
Inductive Command : Type :=
| CmdPlay (inVoice ok : bool) (r : Resolved)
| CmdSkip
| CmdStop
| CmdDisconnect
| CmdQueue
| CmdNp
| CmdHelp
| CmdRepeat (mode : RepeatMode)
| CmdOther.                        (* a name the [switch] has no case for *)

(** The [switch] of the [interactionCreate] listener. *)
Definition runCommand (cmd : Command) (p : MusicPlayer) : MusicPlayer :=
  match cmd with
  | CmdPlay inVoice ok r => play inVoice ok r p
  | CmdSkip => skip p
  | CmdStop => stop p
  | CmdDisconnect => disconnect p
  | CmdRepeat mode => setRepeat mode p
  | CmdQueue | CmdNp | CmdHelp | CmdOther => p
  end.

(** The [interactionCreate] listener: [guild] is [interaction.guild?.id]. *)
Definition interactionCreate (isChatInput : bool) (guild : option string)
    (cmd : Command) (m : Sessions) : Sessions :=
  if negb isChatInput then m
  else
    match guild with
    | None => m
    | Some g =>
        let player := match sessions_get g m with
                      | Some p => p
                      | None => init
                      end in
        sessions_set g (runCommand cmd player) m
    end.

(** ** Predicates and sample data of the properties *)

(** The optional [filePath] of a queue item is not set. *)
Definition no_file (c : QueueItem) : Prop := filePath c = None.

(** No item that the player holds has a [filePath], and [unlinkSync] was
    never called. *)
Definition files_unset (p : MusicPlayer) : Prop :=
  Forall no_file (queue p) /\
  Forall no_file (inflight p) /\
  Forall no_file (awaiting p) /\
  Forall no_file (listeners p) /\
  (forall c, currentlyPlaying p = Some c -> no_file c) /\
  unlinked p = [].

(** At most one [downloadVideo] call is in flight, and [downloading] is set
    exactly while one is. *)
Definition single_flight (p : MusicPlayer) : Prop :=
  List.length (inflight p) <= 1 /\ (downloading p = true <-> inflight p <> []).

(** [n] dequeues in a row: the items they return and the player they leave. *)
Fixpoint dequeues (n : nat) (p : MusicPlayer) : list (option QueueItem) * MusicPlayer :=
  match n with
  | 0 => ([], p)
  | S k =>
      let (current, p1) := dequeue p in
      let (more, p2) := dequeues k p1 in
      (current :: more, p2)
  end.

(** Events that need no new command of a user. *)
Definition autonomous (ev : Event) : bool :=
  match ev with
  | EvTimer _ | EvReadable | EvIdle | EvError | EvDownloaded _ | EvReady _ _ => true
  | _ => false
  end.

Definition tA : Track := mkTrack "A" "https://youtu.be/a" 185 "a.jpg".
Definition tB : Track := mkTrack "B" "https://youtu.be/b" 60 "b.jpg".
Definition tC : Track := mkTrack "C" "https://youtu.be/c" 61 "c.jpg".
Definition tD : Track := mkTrack "D" "https://youtu.be/d" 62 "d.jpg".
Definition tE : Track := mkTrack "E" "https://youtu.be/e" 63 "e.jpg".

(** Both processes start. *)
Definition spawned : Pipeline.Spawn := Pipeline.mkSpawn None None.

Definition ENOENT : Pipeline.NodeError :=
  Pipeline.mkNodeError "spawn ENOENT" (Some "ENOENT").

(** A single video is requested in a fresh session and starts to play. *)
Definition start (t : Track) : list Event :=
  [EvEnsureConnection true; EvPush [t]; EvPlayTail;
   EvDownloaded spawned; EvReady 0 true; EvReadable].

(** The player after a sequence of events from a fresh session. *)
Definition after (evs : list Event) : MusicPlayer :=
  match run evs init with
  | Some p => p
  | None => init
  end.

(** ** Basic facts *)

(** Closed statements about a run are settled by evaluation. *)
Ltac evaluate := vm_compute; repeat split; try discriminate.

Lemma spread_some (c : QueueItem) : spread (Some c) = c.
Proof. destruct c; reflexivity. Qed.

Lemma set_queue_same (p : MusicPlayer) : set_queue (queue p) p = p.
Proof. destruct p; reflexivity. Qed.

Lemma reachable_run (evs : list Event) :
  forall p p', reachable p -> run evs p = Some p' -> reachable p'.
Proof.
  induction evs as [|ev evs IH]; simpl; intros p p' Hp Hrun.
  - now inversion Hrun; subst.
  - destruct (step ev p) as [p1|] eqn:Hstep; [|discriminate].
    eapply IH; [|eassumption]. eapply reachable_step; eassumption.
Qed.

Example formatDuration_185 : formatDuration 185 = "3:05".
Proof. reflexivity. Qed.

(** ** No item ever has a [filePath] *)

Section FilesUnset.

Local Ltac open_player p H :=
  destruct p; unfold files_unset in *; simpl in *;
  destruct H as (Hq & Hi & Ha & Hl & Hc & Hu).

Lemma no_file_spread (current : option QueueItem) :
  (forall x, current = Some x -> no_file x) -> no_file (spread current).
Proof.
  intros H. destruct current as [c|]; [|reflexivity].
  rewrite spread_some. now apply H.
Qed.

Lemma no_file_itemOf (t : Track) : no_file (itemOf t).
Proof. reflexivity. Qed.

Lemma shift_Forall (P : QueueItem -> Prop) (q : list QueueItem) :
  Forall P q ->
  Forall P (snd (shift q)) /\ (forall x, fst (shift q) = Some x -> P x).
Proof.
  intros H. destruct q as [|x rest]; simpl.
  - split; [constructor | discriminate].
  - inversion H; subst. split; [assumption|]. intros y Hy. now inversion Hy; subst.
Qed.

Lemma remove_first_Forall (P : QueueItem -> Prop) c (l : list QueueItem) :
  Forall P l -> Forall P (remove_first c l).
Proof.
  induction 1 as [|x l Hx Hl IH]; simpl; [constructor|].
  destruct (QueueItem_eq_dec c x); [assumption | now constructor].
Qed.

Lemma remove_nth_Forall (P : QueueItem -> Prop) i (l : list QueueItem) :
  Forall P l -> Forall P (remove_nth i l).
Proof.
  intros H. revert i.
  induction H as [|x l Hx Hl IH]; intros [|i]; unfold remove_nth; simpl;
    try constructor; try assumption.
  apply IH.
Qed.

Lemma files_unset_init : files_unset init.
Proof. unfold files_unset; simpl. repeat split; try constructor. discriminate. Qed.

Lemma playNext_catch_files p : files_unset p -> files_unset (playNext_catch p).
Proof.
  intros H. open_player p H. repeat split; try assumption.
  - now apply shift_Forall.
  - discriminate.
Qed.

Lemma dequeue_files p :
  files_unset p ->
  files_unset (snd (dequeue p)) /\ (forall x, fst (dequeue p) = Some x -> no_file x).
Proof.
  intros H. unfold dequeue.
  destruct (repeat p) eqn:Hr, (currentlyPlaying p) as [c|] eqn:Hcp;
    try (destruct (shift (queue p)) as [current rest] eqn:Hs);
    open_player p H; subst; simpl in *;
    pose proof (shift_Forall Hq) as [Hrest Hhead]; rewrite ?Hs in *; simpl in *;
    repeat split; auto; try discriminate;
    unfold push; apply Forall_app; (split; [assumption|]);
    (constructor; [|constructor]); now apply no_file_spread.
Qed.

Lemma playNext_files p : files_unset p -> files_unset (fst (playNext p)).
Proof.
  intros H. unfold playNext.
  destruct ((List.length (queue p) =? 0) && negb (RepeatMode_eqb (repeat p) all));
    [assumption|].
  destruct (dequeue_files H) as [H1 Hcur].
  destruct (dequeue p) as [current p1]; simpl in *.
  destruct current as [c|]; simpl.
  - specialize (Hcur c eq_refl).
    open_player p1 H1. repeat split; auto.
    apply Forall_app. split; [assumption|]. now repeat constructor.
  - apply playNext_catch_files. open_player p1 H1. repeat split; auto.
Qed.

Lemma onStateChange_files c oldS newS p :
  files_unset p -> files_unset (onStateChange c oldS newS p).
Proof.
  intros H. unfold onStateChange.
  destruct newS; try assumption.
  destruct (negb (AudioPlayerStatus_eqb oldS Idle)); [|assumption].
  open_player p H. repeat split; auto.
  - now apply shift_Forall.
  - now apply remove_first_Forall.
Qed.

Lemma emit_stateChange_files oldS newS (ls : list QueueItem) :
  forall p, files_unset p ->
    files_unset (fold_left (fun acc c => onStateChange c oldS newS acc) ls p).
Proof.
  induction ls as [|c ls IH]; simpl; intros p H; [assumption|].
  apply IH. now apply onStateChange_files.
Qed.

Lemma truthy_path_no_file (finished : option QueueItem) :
  (forall x, finished = Some x -> no_file x) -> truthy_path finished = None.
Proof.
  intros H. destruct finished as [f|]; [|reflexivity].
  unfold truthy_path. now rewrite (H f eq_refl).
Qed.

Lemma onIdle_files p : files_unset p -> files_unset (onIdle p).
Proof.
  intros H. unfold onIdle.
  assert (Hs := shift_Forall (P := no_file) (q := queue p)).
  destruct (shift (queue p)) as [finished rest]; simpl in Hs.
  destruct Hs as [Hrest Hhead]; [apply H|].
  rewrite (truthy_path_no_file Hhead).
  apply playNext_files. open_player p H. repeat split; auto.
Qed.

Lemma onError_files p : files_unset p -> files_unset (onError p).
Proof.
  intros H. open_player p H. repeat split; auto. now apply shift_Forall.
Qed.

Lemma setState_files newS p : files_unset p -> files_unset (setState newS p).
Proof.
  intros H. unfold setState.
  set (p2 := fold_left _ _ _).
  assert (H2 : files_unset p2).
  { apply emit_stateChange_files. open_player p H. repeat split; auto. }
  destruct (negb (AudioPlayerStatus_eqb (status p) newS)); [|assumption].
  destruct newS; try assumption. now apply onIdle_files.
Qed.

Lemma set_stopRequested_files b p :
  files_unset p -> files_unset (set_stopRequested b p).
Proof. intros H. open_player p H. repeat split; auto. Qed.

Lemma set_connection_files v p :
  files_unset p -> files_unset (set_connection v p).
Proof. intros H. open_player p H. repeat split; auto. Qed.

Lemma enqueue_files ts p : files_unset p -> files_unset (enqueue ts p).
Proof.
  intros H. open_player p H. repeat split; auto.
  unfold push. apply Forall_app. split; [assumption|].
  apply Forall_forall. intros x Hx. apply in_map_iff in Hx.
  destruct Hx as (t & <- & _). apply no_file_itemOf.
Qed.

Lemma play_tail_files p : files_unset p -> files_unset (play_tail p).
Proof.
  intros H. unfold play_tail.
  destruct ((List.length (queue p) =? 1) && negb (downloading p)); [|assumption].
  now apply playNext_files.
Qed.

Lemma set_inflight_files rest p :
  files_unset p -> Forall no_file rest -> files_unset (set_inflight rest p).
Proof. intros H Hrest. open_player p H. repeat split; auto. Qed.

Lemma set_downloading_files b p : files_unset p -> files_unset (set_downloading b p).
Proof. intros H. open_player p H. repeat split; auto. Qed.

Lemma set_awaiting_files l p :
  files_unset p -> Forall no_file l -> files_unset (set_awaiting l p).
Proof. intros H Hl'. open_player p H. repeat split; auto. Qed.

Lemma playNext_downloaded_files pr p p' o :
  files_unset p -> playNext_downloaded pr p = Some (p', o) -> files_unset p'.
Proof.
  intros H. unfold playNext_downloaded.
  destruct (inflight p) as [|current rest] eqn:Hin; [discriminate|].
  assert (Hfl : Forall no_file (current :: rest)) by (rewrite <- Hin; apply H).
  inversion Hfl as [|? ? Hcur Hrest]; subst.
  pose proof (set_inflight_files H Hrest) as H0.
  destruct pr as [|s|e]; [discriminate| |].
  - pose proof (set_downloading_files false H0) as H1.
    destruct (connection _); intros E; inversion E; subst; clear E.
    + apply set_awaiting_files; [assumption|].
      apply Forall_app. split; [apply H1 | now repeat constructor].
    + now apply playNext_catch_files.
  - intros E; inversion E; subst. now apply playNext_catch_files.
Qed.

Lemma playNext_ready_files i ok p p' o :
  files_unset p -> playNext_ready i ok p = Some (p', o) -> files_unset p'.
Proof.
  intros H. unfold playNext_ready.
  destruct (nth_error (awaiting p) i) as [current|] eqn:Hn; [|discriminate].
  assert (Hcur : no_file current).
  { destruct H as (_ & _ & Ha & _). rewrite Forall_forall in Ha.
    apply Ha. eapply nth_error_In; eassumption. }
  assert (H0 : files_unset (set_awaiting (remove_nth i (awaiting p)) p)).
  { apply set_awaiting_files; [assumption|]. apply remove_nth_Forall, H. }
  destruct ok; intros E; inversion E; subst; clear E.
  - assert (H1 : files_unset
                   (audioPlayer_play (set_awaiting (remove_nth i (awaiting p)) p))).
    { unfold audioPlayer_play. apply setState_files.
      now apply set_stopRequested_files. }
    revert H1. generalize (audioPlayer_play (set_awaiting (remove_nth i (awaiting p)) p)).
    intros p1 H1. open_player p1 H1. repeat split; auto.
    + apply Forall_app. split; [assumption|]. now repeat constructor.
    + intros c E. now inversion E; subst.
  - now apply playNext_catch_files.
Qed.

Lemma step_files ev p p' : files_unset p -> step ev p = Some p' -> files_unset p'.
Proof.
  intros H. unfold step.
  destruct (is_task ev && negb (no_inflight p)); [discriminate|].
  destruct ev; simpl.
  - intros E; inversion E; subst. unfold ensureConnection.
    destruct (connection p) as [[]|]; try destruct ok; simpl;
      auto using set_connection_files.
  - intros E; inversion E; subst. now apply enqueue_files.
  - intros E; inversion E; subst. now apply play_tail_files.
  - intros E; inversion E; subst. unfold setRepeat.
    open_player p H. repeat split; auto.
  - intros E; inversion E; subst. unfold stop, audioPlayer_stop. simpl.
    destruct (status p); open_player p H; repeat split; auto.
  - intros E; inversion E; subst. unfold disconnect, stop, audioPlayer_stop. simpl.
    destruct (status p); open_player p H; repeat split; auto.
  - intros E; inversion E; subst. unfold skip, audioPlayer_stop.
    destruct (status p); auto using set_stopRequested_files.
  - destruct (nth_error (timers p) i); [|discriminate].
    intros E; inversion E; subst. apply playNext_files.
    open_player p H. repeat split; auto.
  - destruct (status p); try discriminate.
    intros E; inversion E; subst. now apply setState_files.
  - destruct (status p); try discriminate;
      intros E; inversion E; subst; unfold audioPlayer_end;
      apply setState_files; now apply set_stopRequested_files.
  - destruct (status p); try discriminate;
      intros E; inversion E; subst; now apply onError_files.
  - intros E; inversion E; subst. unfold onDisconnected.
    destruct (connection p); [destruct recovered|]; auto using set_connection_files.
  - destruct (inflight p) as [|current rest]; [discriminate|].
    destruct (playNext_downloaded _ p) as [[p1 o]|] eqn:Hd; [|discriminate].
    simpl. intros E; inversion E; subst. eapply playNext_downloaded_files; eassumption.
  - destruct (playNext_ready i ok p) as [[p1 o]|] eqn:Hd; [|discriminate].
    simpl. intros E; inversion E; subst. eapply playNext_ready_files; eassumption.
Qed.

End FilesUnset.

(** ** At most one download is in flight *)

Section SingleFlight.

Local Ltac frame p := destruct p; simpl in *.

Lemma single_flight_idle p :
  inflight p = [] -> downloading p = false -> single_flight p.
Proof.
  intros Hi Hd. unfold single_flight. rewrite Hi, Hd. simpl.
  split; [lia|]. split; [discriminate | congruence].
Qed.

Lemma single_flight_empty p :
  single_flight p -> inflight p = [] -> downloading p = false.
Proof.
  intros [_ Hiff] Hi. destruct (downloading p); [|reflexivity].
  exfalso. now apply Hiff.
Qed.

Lemma playNext_catch_frame p :
  inflight (playNext_catch p) = inflight p /\
  downloading (playNext_catch p) = false /\
  invoked (playNext_catch p) = invoked p.
Proof. frame p. auto. Qed.

Lemma dequeue_frame p :
  inflight (snd (dequeue p)) = inflight p /\
  downloading (snd (dequeue p)) = downloading p /\
  invoked (snd (dequeue p)) = invoked p.
Proof.
  unfold dequeue.
  destruct (repeat p) eqn:Hr, (currentlyPlaying p);
    try (destruct (shift (queue p))); frame p; auto.
Qed.

(** A [playNext] call starts at most one download, and none when it
    returns early or fails at the dequeue. *)
Lemma playNext_flight p :
  inflight p = [] -> downloading p = false -> single_flight (fst (playNext p)).
Proof.
  intros Hi Hd. unfold playNext.
  destruct ((List.length (queue p) =? 0) && negb (RepeatMode_eqb (repeat p) all)).
  - now apply single_flight_idle.
  - destruct (dequeue_frame p) as (Fi & Fd & _).
    destruct (dequeue p) as [current p1]; simpl in *.
    destruct current as [c|]; simpl.
    + unfold single_flight. frame p1. subst. rewrite Hi. simpl.
      split; [lia|]. split; [discriminate | reflexivity].
    + destruct (playNext_catch_frame (set_downloading true p1)) as (Ci & Cd & _).
      apply single_flight_idle; [|assumption].
      rewrite Ci. frame p1. congruence.
Qed.

Lemma onStateChange_frame c oldS newS p :
  inflight (onStateChange c oldS newS p) = inflight p /\
  downloading (onStateChange c oldS newS p) = downloading p /\
  invoked (onStateChange c oldS newS p) = invoked p.
Proof.
  unfold onStateChange.
  destruct newS; auto.
  destruct (negb (AudioPlayerStatus_eqb oldS Idle)); auto.
Qed.

Lemma emit_stateChange_frame oldS newS (ls : list QueueItem) :
  forall p,
    let p' := fold_left (fun acc c => onStateChange c oldS newS acc) ls p in
    inflight p' = inflight p /\ downloading p' = downloading p /\
    invoked p' = invoked p.
Proof.
  induction ls as [|c ls IH]; simpl; intros p; [auto|].
  destruct (IH (onStateChange c oldS newS p)) as (Ii & Id & Iv).
  destruct (onStateChange_frame c oldS newS p) as (Fi & Fd & Fv).
  repeat split; congruence.
Qed.

Lemma onIdle_flight p :
  inflight p = [] -> downloading p = false -> single_flight (onIdle p).
Proof.
  intros Hi Hd. unfold onIdle.
  destruct (shift (queue p)) as [finished rest].
  destruct (truthy_path finished); apply playNext_flight; frame p; assumption.
Qed.

Lemma setState_flight newS p :
  inflight p = [] -> downloading p = false -> single_flight (setState newS p).
Proof.
  intros Hi Hd. unfold setState.
  destruct (emit_stateChange_frame (status p) newS (listeners (set_status newS p))
              (set_status newS p)) as (Fi & Fd & _).
  set (p2 := fold_left _ _ _) in *.
  assert (Hi2 : inflight p2 = []) by (rewrite Fi; frame p; assumption).
  assert (Hd2 : downloading p2 = false) by (rewrite Fd; frame p; assumption).
  destruct (negb (AudioPlayerStatus_eqb (status p) newS));
    [destruct newS|]; auto using single_flight_idle, onIdle_flight.
Qed.

Lemma setState_frame newS p :
  newS <> Idle ->
  inflight (setState newS p) = inflight p /\
  downloading (setState newS p) = downloading p /\
  invoked (setState newS p) = invoked p.
Proof.
  intros Hn. unfold setState.
  destruct (emit_stateChange_frame (status p) newS (listeners (set_status newS p))
              (set_status newS p)) as (Fi & Fd & Fv).
  set (p2 := fold_left _ _ _) in *.
  assert (inflight p2 = inflight p /\ downloading p2 = downloading p /\
          invoked p2 = invoked p) as Hp2
    by (rewrite Fi, Fd, Fv; frame p; auto).
  destruct (negb (AudioPlayerStatus_eqb (status p) newS));
    [destruct newS|]; try assumption.
  now contradiction Hn.
Qed.

Lemma audioPlayer_play_frame p :
  inflight (audioPlayer_play p) = inflight p /\
  downloading (audioPlayer_play p) = downloading p /\
  invoked (audioPlayer_play p) = invoked p.
Proof.
  unfold audioPlayer_play.
  destruct (setState_frame (newS := Buffering) (set_stopRequested false p))
    as (Fi & Fd & Fv); [discriminate|].
  rewrite Fi, Fd, Fv. frame p. auto.
Qed.

Lemma play_tail_flight p : single_flight p -> single_flight (play_tail p).
Proof.
  intros H. unfold play_tail.
  destruct (List.length (queue p) =? 1); simpl; [|assumption].
  destruct (downloading p) eqn:Hd; simpl; [assumption|].
  apply playNext_flight; [|assumption].
  destruct H as [_ Hiff]. destruct (inflight p); [reflexivity|].
  assert (Ht : downloading p = true) by (apply Hiff; discriminate).
  congruence.
Qed.

(** While [downloading] is set, the end of [play] starts nothing. *)
Lemma play_tail_guard p : downloading p = true -> play_tail p = p.
Proof.
  intros Hd. unfold play_tail. rewrite Hd.
  now rewrite andb_false_r.
Qed.

Lemma playNext_downloaded_flight pr p p' o :
  single_flight p -> playNext_downloaded pr p = Some (p', o) ->
  inflight p' = [] /\ downloading p' = false.
Proof.
  intros [Hlen _]. unfold playNext_downloaded.
  destruct (inflight p) as [|current rest] eqn:Hin; [discriminate|].
  assert (rest = []) by (destruct rest; [reflexivity | simpl in Hlen; lia]).
  subst rest.
  destruct pr as [|s|e]; [discriminate| |].
  - destruct (connection (set_downloading false (set_inflight [] p))) eqn:Hc;
      intros E; inversion E; subst; clear E.
    + frame p. auto.
    + destruct (playNext_catch_frame (set_downloading false (set_inflight [] p)))
        as (Ci & Cd & _).
      rewrite Ci. frame p. auto.
  - intros E; inversion E; subst; clear E.
    destruct (playNext_catch_frame (set_inflight [] p)) as (Ci & Cd & _).
    rewrite Ci. frame p. auto.
Qed.

Lemma playNext_ready_flight i ok p p' o :
  inflight p = [] -> downloading p = false ->
  playNext_ready i ok p = Some (p', o) -> single_flight p'.
Proof.
  intros Hi Hd. unfold playNext_ready.
  destruct (nth_error (awaiting p) i) as [current|]; [|discriminate].
  set (p0 := set_awaiting (remove_nth i (awaiting p)) p).
  assert (Hi0 : inflight p0 = []) by (subst p0; frame p; assumption).
  assert (Hd0 : downloading p0 = false) by (subst p0; frame p; assumption).
  destruct ok; intros E; inversion E; subst p' o; clear E.
  - destruct (audioPlayer_play_frame p0) as (Fi & Fd & _).
    apply single_flight_idle; simpl; congruence.
  - destruct (playNext_catch_frame p0) as (Ci & Cd & _).
    apply single_flight_idle; congruence.
Qed.

Lemma ensureConnection_frame ok p :
  let p1 := fst (ensureConnection ok p) in
  downloading p1 = downloading p /\ invoked p1 = invoked p /\
  inflight p1 = inflight p /\ queue p1 = queue p.
Proof.
  unfold ensureConnection.
  destruct (connection p) as [[]|]; try destruct ok; simpl; auto.
Qed.

Lemma step_flight ev p p' : single_flight p -> step ev p = Some p' -> single_flight p'.
Proof.
  intros H. unfold step.
  destruct (is_task ev) eqn:Htask; simpl.
  - unfold no_inflight. destruct (inflight p) eqn:Hi; simpl; [|discriminate].
    pose proof (single_flight_empty H Hi) as Hd.
    destruct ev; try discriminate Htask; simpl.
    + intros E; inversion E; subst. apply single_flight_idle; frame p; assumption.
    + intros E; inversion E; subst. unfold stop, audioPlayer_stop. simpl.
      destruct (status p); apply single_flight_idle; frame p; assumption.
    + intros E; inversion E; subst. unfold disconnect, stop, audioPlayer_stop. simpl.
      destruct (status p); apply single_flight_idle; frame p; assumption.
    + intros E; inversion E; subst. unfold skip, audioPlayer_stop.
      destruct (status p); apply single_flight_idle; frame p; assumption.
    + destruct (nth_error (timers p) i); [|discriminate].
      intros E; inversion E; subst. apply playNext_flight; frame p; assumption.
    + destruct (status p); try discriminate.
      intros E; inversion E; subst. now apply setState_flight.
    + destruct (status p); try discriminate;
        intros E; inversion E; subst; unfold audioPlayer_end;
        apply setState_flight; frame p; assumption.
    + destruct (status p); try discriminate;
        intros E; inversion E; subst; apply single_flight_idle; frame p; assumption.
    + intros E; inversion E; subst. unfold onDisconnected.
      destruct (connection p); [destruct recovered|];
        apply single_flight_idle; frame p; assumption.
    + destruct (playNext_ready i ok p) as [[p1 o]|] eqn:Hr; [|discriminate].
      simpl. intros E; inversion E; subst. eapply playNext_ready_flight; eassumption.
  - destruct ev; try discriminate Htask; simpl.
    + intros E; inversion E; subst.
      destruct (ensureConnection_frame ok p) as (Ed & _ & Ei & _).
      unfold single_flight. rewrite Ed, Ei. exact H.
    + intros E; inversion E; subst.
      destruct H as [Hlen Hiff]. unfold single_flight. frame p. now split.
    + intros E; inversion E; subst. now apply play_tail_flight.
    + destruct (inflight p) as [|current rest] eqn:Hi; [discriminate|].
      destruct (playNext_downloaded _ p) as [[p1 o]|] eqn:Hd; [|discriminate].
      simpl. intros E; inversion E; subst.
      destruct (playNext_downloaded_flight _ H Hd) as [Hi1 Hd1].
      now apply single_flight_idle.
Qed.

Lemma reachable_single_flight p : reachable p -> single_flight p.
Proof.
  induction 1 as [|ev p p' _ IH Hstep].
  - apply single_flight_idle; reflexivity.
  - eapply step_flight; eassumption.
Qed.

End SingleFlight.

(** ** Properties of the specification *)

Lemma enqueue_frame ts p :
  downloading (enqueue ts p) = downloading p /\
  invoked (enqueue ts p) = invoked p /\
  inflight (enqueue ts p) = inflight p.
Proof. destruct p; simpl; auto. Qed.

Lemma enqueue_each_frame (entries : list Track) :
  forall p,
    let p' := fold_left (fun acc t => enqueue [t] acc) entries p in
    downloading p' = downloading p /\ invoked p' = invoked p /\
    inflight p' = inflight p.
Proof.
  induction entries as [|t entries IH]; simpl; intros p; [auto|].
  destruct (IH (enqueue [t] p)) as (Hd & Hv & Hi).
  destruct (enqueue_frame [t] p) as (Hd' & Hv' & Hi').
  repeat split; congruence.
Qed.

(** A [play] call made while [downloading] is set starts no download. *)
Lemma play_while_downloading inVoice ok r p :
  downloading p = true ->
  invoked (play inVoice ok r p) = invoked p /\
  inflight (play inVoice ok r p) = inflight p.
Proof.
  intros Hd. unfold play.
  destruct inVoice; simpl; [|auto].
  destruct (ensureConnection_frame ok p) as (Ed & Ev & Ei & _).
  destruct (ensureConnection ok p) as [p1 connected]; simpl in *.
  destruct connected; simpl; [|auto].
  assert (Hd1 : downloading p1 = true) by congruence.
  destruct r as [items|[playlistId|] entries|t|[t|]]; auto.
  - destruct (0 <? List.length items); [|auto].
    destruct (enqueue_frame items p1) as (Qd & Qv & Qi).
    rewrite play_tail_guard by congruence. split; congruence.
  - destruct (enqueue_each_frame entries p1) as (Qd & Qv & Qi).
    rewrite play_tail_guard by congruence. split; congruence.
  - destruct (enqueue_frame [t] p1) as (Qd & Qv & Qi).
    rewrite play_tail_guard by congruence. split; congruence.
  - destruct (enqueue_frame [t] p1) as (Qd & Qv & Qi).
    rewrite play_tail_guard by congruence. split; congruence.
Qed.

(** [playNext] itself never reads [downloading]: called with the flag set
    and a queue that is not empty, it starts a download.  That no second
    download starts while one is in flight rests on the guard of [play] and
    on timers and listeners not running before the call in flight resumes. *)
Remark playNext_reads_no_flag (p : MusicPlayer) :
  downloading p = true -> queue p <> [] -> snd (playNext p) = Suspended.
Proof.
  intros _ Hq. unfold playNext, dequeue.
  destruct (queue p) as [|x rest]; [contradiction|]. simpl.
  destruct (repeat p), (currentlyPlaying p); reflexivity.
Qed.

(** A video was requested in a fresh session and its download is in flight. *)
Definition downloading_A : MusicPlayer :=
  set_inflight [itemOf tA]
    (set_invoked [Some (t_url tA)]
       (set_downloading true (set_connection (Some Ready) init))).

Lemma downloading_A_run :
  run [EvEnsureConnection true; EvPush [tA]; EvPlayTail] init = Some downloading_A.
Proof. evaluate. Qed.

(** C4.  In every state a player can reach, at most one [downloadVideo] call
    is in flight and [downloading] is set exactly while one is; a [play]
    request made while [downloading] is set, whatever it resolves to, calls
    [downloadVideo] no second time, and so does the end of [play] after any
    push; the flag is cleared when the call in flight resumes. *)
Theorem one_download_in_flight (p : MusicPlayer) :
  reachable p ->
  List.length (inflight p) <= 1 /\
  (downloading p = true <-> inflight p <> []) /\
  (downloading p = true ->
   (forall inVoice ok r,
      invoked (play inVoice ok r p) = invoked p /\
      inflight (play inVoice ok r p) = inflight p) /\
   (forall ts, step EvPlayTail (enqueue ts p) = Some (enqueue ts p))) /\
  (forall sp p',
     step (EvDownloaded sp) p = Some p' -> inflight p' = [] /\ downloading p' = false).
Proof.
  intros Hr. pose proof (reachable_single_flight Hr) as Hsf.
  destruct Hsf as [Hlen Hiff].
  split; [exact Hlen|]. split; [exact Hiff|]. split.
  - intros Hd. split.
    + intros inVoice ok r. now apply play_while_downloading.
    + intros ts.
      change (step EvPlayTail (enqueue ts p)) with (Some (play_tail (enqueue ts p))).
      rewrite play_tail_guard; [reflexivity|].
      now destruct (enqueue_frame ts p) as (-> & _).
  - intros sp p'. unfold step. simpl.
    destruct (inflight p) as [|current rest] eqn:Hi; [discriminate|].
    destruct (playNext_downloaded _ p) as [[p1 o]|] eqn:Hd; [|discriminate].
    simpl. intros E; inversion E; subst.
    eapply playNext_downloaded_flight; [|eassumption].
    unfold single_flight. rewrite Hi. now split.
Qed.

Lemma one_download_in_flight_witness :
  reachable downloading_A /\ downloading downloading_A = true /\
  invoked (play true true (YoutubeVideo tB) downloading_A) = invoked downloading_A /\
  step (EvDownloaded spawned) downloading_A <> None.
Proof.
  assert (Hr : reachable downloading_A)
    by (eapply reachable_run; [apply reachable_init | apply downloading_A_run]).
  split; [exact Hr|]. split; [reflexivity|].
  destruct (one_download_in_flight Hr) as (_ & _ & Hplay & _).
  split; [apply (Hplay eq_refl) | discriminate].
Defined.

(** A video plays and two more are queued behind it. *)
Definition playing_A_queued_BC : MusicPlayer :=
  set_queue [itemOf tB; itemOf tC]
    (set_listeners [itemOf tA]
       (set_status Playing
          (set_currentlyPlaying (Some (itemOf tA))
             (set_invoked [Some (t_url tA)] (set_connection (Some Ready) init))))).

Lemma playing_A_queued_BC_run :
  run (start tA ++ [EvPush [tB; tC]]) init = Some playing_A_queued_BC.
Proof. evaluate. Qed.

(** C9.  In every state a player can reach, no item of the queue and no
    currently playing item has a [filePath], so the test [finished?.filePath]
    of the [Idle] listener fails for the head of the queue, and [unlinkSync]
    has never been called. *)
Theorem filePath_never_set (p : MusicPlayer) :
  reachable p ->
  Forall (fun c => filePath c = None) (queue p) /\
  (forall c, currentlyPlaying p = Some c -> filePath c = None) /\
  truthy_path (fst (shift (queue p))) = None /\
  unlinked p = [].
Proof.
  intros Hr.
  assert (H : files_unset p).
  { induction Hr as [|ev p p' _ IH Hstep].
    - apply files_unset_init.
    - eapply step_files; eassumption. }
  destruct H as (Hq & _ & _ & _ & Hc & Hu).
  repeat split; try assumption.
  apply truthy_path_no_file. now apply shift_Forall.
Qed.

Lemma filePath_never_set_witness :
  reachable playing_A_queued_BC /\
  map filePath (queue playing_A_queued_BC) = [None; None] /\
  option_map filePath (currentlyPlaying playing_A_queued_BC) = Some None /\
  unlinked playing_A_queued_BC = [].
Proof.
  assert (Hr : reachable playing_A_queued_BC)
    by (eapply reachable_run; [apply reachable_init | apply playing_A_queued_BC_run]).
  split; [exact Hr|].
  destruct (filePath_never_set Hr) as (_ & _ & _ & Hu).
  split; [vm_compute; reflexivity|]. split; [vm_compute; reflexivity | exact Hu].
Defined.

(** A single video was played to its end under repeat [all]: the queue is
    empty and two timers are pending. *)
Definition all_after_A : list Event := EvSetRepeat all :: start tA ++ [EvIdle].

(** C10.  When [playNext] runs on an empty queue under repeat [all], the
    guard does not return, the dequeue yields [undefined], and reading
    [current.title] throws into the [catch] block; the guard returns exactly
    when the queue is empty and the mode is not [all]; and a player reaches
    such a state with a timer pending that calls [playNext] there. *)
Theorem playNext_empty_queue_repeat_all :
  (forall p, queue p = [] -> repeat p = all ->
     fst (dequeue p) = None /\
     playNext p =
       (playNext_catch (set_downloading true (snd (dequeue p))), Caught TypeError)) /\
  (forall p, snd (playNext p) = Returned <-> (queue p = [] /\ repeat p <> all)) /\
  (exists p, run all_after_A init = Some p /\
     queue p = [] /\ repeat p = all /\ currentlyPlaying p = None /\
     exists p',
       step (EvTimer 0) p = Some p' /\
       snd (playNext (set_timers (remove_nth 0 (timers p)) p)) = Caught TypeError /\
       queue p' = [] /\ timers p' = [5000; 5000]).
Proof.
  split; [|split].
  - intros p Hq Hr. unfold playNext, dequeue. rewrite Hq, Hr. simpl.
    split; reflexivity.
  - intros p. unfold playNext.
    destruct (queue p) as [|x rest] eqn:Hq; destruct (repeat p) eqn:Hr; simpl;
      try (split; [intros _; split; [reflexivity | discriminate] | reflexivity]);
      destruct (dequeue p) as [[c|] p1]; simpl;
      (split; [discriminate | intros [H1 H2]; congruence]).
  - exists (after all_after_A). split; [evaluate|]. repeat split; try evaluate.
    exists (after (all_after_A ++ [EvTimer 0])). evaluate.
Qed.

Lemma playNext_empty_queue_repeat_all_witness :
  snd (playNext (set_repeat all init)) = Caught TypeError.
Proof.
  destruct playNext_empty_queue_repeat_all as (H & _ & _).
  destruct (H (set_repeat all init) eq_refl eq_refl) as [_ ->].
  reflexivity.
Defined.



(** Whatever the tracks are: under repeat [off], when the track that one
    [playNext] call started is completed, the two listeners remove the two
    items at the head of the queue and [playNext] dequeues the third. *)
Lemma completion_consumes_three (p : MusicPlayer) (c b1 b2 d : QueueItem) rest :
  repeat p = off -> status p = Playing -> listeners p = [c] ->
  queue p = b1 :: b2 :: d :: rest ->
  queue (audioPlayer_end p) = rest /\
  inflight (audioPlayer_end p) = inflight p ++ [d] /\
  invoked (audioPlayer_end p) = invoked p ++ [url d] /\
  timers (audioPlayer_end p) = timers p ++ [1000].
Proof.
  intros Hr Hs Hl Hq. destruct p; simpl in *; subst.
  unfold audioPlayer_end, setState, onIdle, playNext, dequeue; simpl.
  destruct (QueueItem_eq_dec c c) as [_|Hne]; [|now contradiction Hne].
  unfold truthy_path.
  destruct (filePath b2) as [path|]; [destruct (String.eqb path "")|];
    simpl; destruct currentlyPlaying0; simpl; repeat split.
Qed.

(** C1 fails on the code.  Repeat is [off]; A plays and B, C, D are queued
    behind it.  When A is completed the queue loses all three: the
    [onStateChange] listener shifts B away, the [Idle] listener shifts C
    away, and [playNext] dequeues D, whose download starts.  B and C are
    never given to [downloadVideo]. *)
Theorem completion_drops_queued_tracks :
  exists p p',
    run (start tA ++ [EvPush [tB; tC; tD]; EvPlayTail]) init = Some p /\
    repeat p = off /\ status p = Playing /\
    currentlyPlaying p = Some (itemOf tA) /\
    queue p = [itemOf tB; itemOf tC; itemOf tD] /\
    step EvIdle p = Some p' /\
    queue p' = [] /\
    inflight p' = [itemOf tD] /\
    invoked p' = [Some (t_url tA); Some (t_url tD)].
Proof.
  exists (after (start tA ++ [EvPush [tB; tC; tD]; EvPlayTail])),
    (after (start tA ++ [EvPush [tB; tC; tD]; EvPlayTail; EvIdle])).
  evaluate.
Qed.

(** C5 fails on the code.  Repeat is [off]; the download of A fails, B and C
    are queued together, and the retry timer calls [playNext], which
    dequeues B.  When the download of B fails too, the [catch] block clears
    the current item and the flag and sets the 5 s timer, but its
    [queue.shift()] removes C, the item behind the failed one: C is dropped
    and was never given to [downloadVideo]. *)
Theorem download_failure_drops_next_item :
  let failing := Pipeline.mkSpawn (Some ENOENT) None in
  exists p p',
    run [EvEnsureConnection true; EvPush [tA]; EvPlayTail; EvDownloaded failing;
         EvPush [tB; tC]; EvPlayTail; EvTimer 0] init = Some p /\
    inflight p = [itemOf tB] /\ queue p = [itemOf tC] /\
    step (EvDownloaded failing) p = Some p' /\
    currentlyPlaying p' = None /\ downloading p' = false /\ timers p' = [5000] /\
    queue p' = [] /\
    invoked p' = [Some (t_url tA); Some (t_url tB)].
Proof.
  intros failing.
  exists (after [EvEnsureConnection true; EvPush [tA]; EvPlayTail; EvDownloaded failing;
                 EvPush [tB; tC]; EvPlayTail; EvTimer 0]),
    (after [EvEnsureConnection true; EvPush [tA]; EvPlayTail; EvDownloaded failing;
            EvPush [tB; tC]; EvPlayTail; EvTimer 0; EvDownloaded failing]).
  evaluate.
Qed.

(** C7 fails on the code.  A request that resolves to two tracks is made in
    a fresh session.  Both are queued, the test [queue.length === 1] of
    [play] fails, and [playNext] is not called: nothing is downloaded,
    nothing plays, and no timer, listener or continuation is left that
    could start the head of the queue. *)
Theorem playlist_in_idle_session_not_started :
  forall r, r = SpotifyItems [tA; tB] \/ r = YoutubePlaylist (Some "PL1") [tA; tB] ->
  let p := play true true r init in
  queue p = [itemOf tA; itemOf tB] /\
  currentlyPlaying p = None /\ status p = Idle /\
  downloading p = false /\ invoked p = [] /\
  (forall ev, autonomous ev = true -> step ev p = None).
Proof.
  intros r [-> | ->]; (split; [evaluate|]); repeat (split; [evaluate|]);
    intros ev Hev; destruct ev; try discriminate Hev; try (now evaluate);
    now destruct i.
Qed.

Lemma playlist_in_idle_session_not_started_witness :
  invoked (play true true (SpotifyItems [tA; tB]) init) = [] /\
  step (EvTimer 0) (play true true (SpotifyItems [tA; tB]) init) = None.
Proof.
  destruct (playlist_in_idle_session_not_started (or_introl eq_refl))
    as (_ & _ & _ & _ & Hinv & Hstuck).
  split; [exact Hinv | apply Hstuck; reflexivity].
Defined.

(** *** The download pipeline *)

Lemma handle_settled ev (s : Pipeline.Pipe) e :
  Pipeline.promise s = Pipeline.Rejected e ->
  Pipeline.promise (Pipeline.handle ev s) = Pipeline.Rejected e.
Proof.
  intros H. unfold Pipeline.handle.
  destruct (Pipeline.emitter ev s); try assumption;
    destruct (Pipeline.listening (Pipeline.emit ev s));
    destruct ev; simpl; rewrite ?H; reflexivity.
Qed.

Lemma handle_never_kills ev (s : Pipeline.Pipe) :
  Pipeline.ytdlp s <> Pipeline.Killed /\ Pipeline.ffmpeg s <> Pipeline.Killed ->
  Pipeline.ytdlp (Pipeline.handle ev s) <> Pipeline.Killed /\
  Pipeline.ffmpeg (Pipeline.handle ev s) <> Pipeline.Killed.
Proof.
  intros [Hy Hf]. unfold Pipeline.handle.
  destruct (Pipeline.emitter ev s); try (split; assumption);
    destruct (Pipeline.listening (Pipeline.emit ev s));
    destruct ev; simpl; split; auto; discriminate.
Qed.

Lemma handle_all_settled evs :
  forall (s : Pipeline.Pipe) e,
    Pipeline.promise s = Pipeline.Rejected e ->
    Pipeline.promise (Pipeline.handle_all evs s) = Pipeline.Rejected e.
Proof.
  unfold Pipeline.handle_all.
  induction evs as [|ev evs IH]; simpl; intros s e H; [assumption|].
  apply IH. now apply handle_settled.
Qed.

Lemma handle_all_never_kills evs :
  forall s : Pipeline.Pipe,
    Pipeline.ytdlp s <> Pipeline.Killed /\ Pipeline.ffmpeg s <> Pipeline.Killed ->
    Pipeline.ytdlp (Pipeline.handle_all evs s) <> Pipeline.Killed /\
    Pipeline.ffmpeg (Pipeline.handle_all evs s) <> Pipeline.Killed.
Proof.
  unfold Pipeline.handle_all.
  induction evs as [|ev evs IH]; simpl; intros s H; [assumption|].
  apply IH. now apply handle_never_kills.
Qed.

Lemma downloadVideo_settled url sp :
  Pipeline.promise (Pipeline.downloadVideo url sp) =
    match Pipeline.first_throw sp with
    | Some e => Pipeline.Rejected e
    | None => Pipeline.Fulfilled Pipeline.ffmpeg_stdout
    end.
Proof.
  unfold Pipeline.downloadVideo, Pipeline.first_throw.
  destruct (Pipeline.ytdlp_throws sp), (Pipeline.ffmpeg_throws sp); reflexivity.
Qed.

(** The pipe of a download of A whose two processes were started. *)
Definition piped_A : Pipeline.Pipe :=
  Pipeline.downloadVideo (Some (t_url tA)) spawned.

(** C6.  Both processes are started and the executor fulfils the promise
    with the output of ffmpeg (line 246).  Then ffmpeg reports through its
    ['error'] event that it could not be spawned: the listener stops the
    bar and calls [reject(error)] on the settled promise, which stays
    fulfilled and is not rejected with the triggering error, and yt-dlp is
    left running.  An ['error'] event of yt-dlp is lost in the same way and
    leaves ffmpeg running. *)
Theorem downloadVideo_late_error_ignored :
  Pipeline.promise piped_A = Pipeline.Fulfilled Pipeline.ffmpeg_stdout /\
  Pipeline.listening piped_A = true /\
  Pipeline.promise (Pipeline.handle (Pipeline.ffmpeg_error ENOENT) piped_A)
    = Pipeline.Fulfilled Pipeline.ffmpeg_stdout /\
  Pipeline.promise (Pipeline.handle (Pipeline.ffmpeg_error ENOENT) piped_A)
    <> Pipeline.Rejected ENOENT /\
  Pipeline.progressBar (Pipeline.handle (Pipeline.ffmpeg_error ENOENT) piped_A)
    = Pipeline.Stopped /\
  Pipeline.ffmpeg (Pipeline.handle (Pipeline.ffmpeg_error ENOENT) piped_A)
    = Pipeline.Failed /\
  Pipeline.running (Pipeline.ytdlp (Pipeline.handle (Pipeline.ffmpeg_error ENOENT) piped_A))
    = true /\
  Pipeline.promise (Pipeline.handle (Pipeline.ytdlp_error ENOENT) piped_A)
    = Pipeline.Fulfilled Pipeline.ffmpeg_stdout /\
  Pipeline.promise (Pipeline.handle (Pipeline.ytdlp_error ENOENT) piped_A)
    <> Pipeline.Rejected ENOENT /\
  Pipeline.running (Pipeline.ffmpeg (Pipeline.handle (Pipeline.ytdlp_error ENOENT) piped_A))
    = true.
Proof. evaluate. Qed.

(** *** Repeat [all] *)

Lemma dequeue_all (x : QueueItem) rest p :
  repeat p = all ->
  dequeue (set_queue (x :: rest) p) = (Some x, set_queue (rest ++ [x]) p).
Proof.
  intros Hr. unfold dequeue. simpl. rewrite Hr.
  unfold push. simpl. now destruct x.
Qed.

Lemma dequeues_all_rotate (q1 : list QueueItem) :
  forall q2 p,
    repeat p = all ->
    dequeues (List.length q1) (set_queue (q1 ++ q2) p) =
      (map Some q1, set_queue (q2 ++ q1) p).
Proof.
  induction q1 as [|x q1 IH]; intros q2 p Hr.
  - simpl. now rewrite app_nil_r.
  - cbn [List.length dequeues app map].
    rewrite dequeue_all by assumption.
    rewrite <- app_assoc, IH by assumption.
    now rewrite <- app_assoc.
Qed.

(** Under repeat [all], two tracks are queued and nothing plays. *)
Definition all_queued_AB : MusicPlayer :=
  set_queue [itemOf tA; itemOf tB] (set_repeat all (set_connection (Some Ready) init)).

(** C2, as the code has it.  Under repeat [all] the dequeue of [playNext]
    removes the head and appends a copy of it to the tail at once: when
    [playNext] suspends for the download, with the status of the audio
    player and the current item untouched, the copy is in the queue.  As
    many dequeues in a row as the queue has items return the items in
    their order and leave the queue as it was. *)
Theorem dequeue_all_rotates (p : MusicPlayer) :
  repeat p = all ->
  (forall x rest, queue p = x :: rest ->
     dequeue p = (Some x, set_queue (rest ++ [x]) p) /\
     snd (playNext p) = Suspended /\
     queue (fst (playNext p)) = rest ++ [x] /\
     status (fst (playNext p)) = status p /\
     currentlyPlaying (fst (playNext p)) = currentlyPlaying p) /\
  dequeues (List.length (queue p)) p = (map Some (queue p), p).
Proof.
  intros Hr. split.
  - intros x rest Hq.
    assert (Hd : dequeue p = (Some x, set_queue (rest ++ [x]) p)).
    { rewrite <- (set_queue_same p) at 1. rewrite Hq. now apply dequeue_all. }
    split; [exact Hd|].
    unfold playNext. rewrite Hd, Hq, Hr. simpl. repeat split.
  - pose proof (dequeues_all_rotate (queue p) [] p Hr) as H.
    rewrite app_nil_r in H. simpl in H. now rewrite set_queue_same in H.
Qed.

Lemma dequeue_all_rotates_witness :
  repeat all_queued_AB = all /\
  dequeues 2 all_queued_AB = ([Some (itemOf tA); Some (itemOf tB)], all_queued_AB).
Proof.
  split; [reflexivity|].
  exact (proj2 (dequeue_all_rotates all_queued_AB eq_refl)).
Defined.

(** C2 fails as stated.  Under repeat [all] a video is requested: while its
    download is in flight and nothing plays yet, its copy is in the queue
    already.  Once it plays, a second video is queued, so the queue holds
    the copy of A and B; when A is completed both are shifted away, the
    queue is empty, and [playNext] ends in its [catch] block: B is never
    given to [downloadVideo] and the queue is not A, B again. *)
Lemma repeat_all_cycle_broken :
  exists p1 p2 p3,
    run [EvSetRepeat all; EvEnsureConnection true; EvPush [tA]; EvPlayTail] init = Some p1 /\
    status p1 = Idle /\ currentlyPlaying p1 = None /\
    inflight p1 = [itemOf tA] /\ queue p1 = [itemOf tA] /\
    run (EvSetRepeat all :: start tA ++ [EvPush [tB]; EvPlayTail]) init = Some p2 /\
    queue p2 = [itemOf tA; itemOf tB] /\
    step EvIdle p2 = Some p3 /\
    queue p3 = [] /\ queue p3 <> [itemOf tA; itemOf tB] /\
    status p3 = Idle /\ inflight p3 = [] /\ awaiting p3 = [] /\
    invoked p3 = [Some (t_url tA)].
Proof.
  exists (after [EvSetRepeat all; EvEnsureConnection true; EvPush [tA]; EvPlayTail]),
    (after (EvSetRepeat all :: start tA ++ [EvPush [tB]; EvPlayTail])),
    (after (EvSetRepeat all :: start tA ++ [EvPush [tB]; EvPlayTail; EvIdle])).
  evaluate.
Qed.

(** *** Repeat [single] *)

Lemma emit_Buffering oldS (ls : list QueueItem) :
  forall p, fold_left (fun acc c => onStateChange c oldS Buffering acc) ls p = p.
Proof. induction ls as [|c ls IH]; simpl; intros p; [reflexivity | apply IH]. Qed.

Lemma audioPlayer_play_eq p :
  audioPlayer_play p = set_status Buffering (set_stopRequested false p).
Proof.
  unfold audioPlayer_play, setState. rewrite emit_Buffering.
  now destruct (negb _).
Qed.

Lemma nth_error_last {A : Type} (l : list A) (c : A) :
  nth_error (l ++ [c]) (List.length (l ++ [c]) - 1) = Some c.
Proof.
  rewrite length_app. simpl. replace (List.length l + 1 - 1) with (List.length l) by lia.
  rewrite nth_error_app2 by lia. now rewrite Nat.sub_diag.
Qed.

Lemma remove_nth_last {A : Type} (l : list A) (c : A) :
  remove_nth (List.length (l ++ [c]) - 1) (l ++ [c]) = l.
Proof.
  rewrite length_app. simpl. replace (List.length l + 1 - 1) with (List.length l) by lia.
  unfold remove_nth.
  induction l as [|x l IH]; simpl; [reflexivity|]. f_equal. exact IH.
Qed.

(** A video plays under repeat [single] and one more is queued. *)
Definition single_A_queued_B : MusicPlayer :=
  set_queue [itemOf tB]
    (set_repeat single
       (set_listeners [itemOf tA]
          (set_status Playing
             (set_currentlyPlaying (Some (itemOf tA))
                (set_invoked [Some (t_url tA)] (set_connection (Some Ready) init)))))).

(** The dequeue of [playNext] under repeat [single] (lines 559-561): the
    current item once more, the queue as it is. *)
Lemma dequeue_single (p : MusicPlayer) (c : QueueItem) :
  repeat p = single -> currentlyPlaying p = Some c -> dequeue p = (Some c, p).
Proof. intros Hr Hc. unfold dequeue. now rewrite Hr, Hc. Qed.

(** C8.  A video plays, its queue is empty, and repeat is set to [single].
    The dequeue of [playNext] would return the video once more, but
    [playNext] returns at its guard (line 553), which lets only repeat
    [all] pass with an empty queue: when the video is completed nothing is
    downloaded and it is not played again.  With B, C, D queued behind the
    video, its completion shifts B and C away before [playNext] runs: the
    head of the queue is consumed. *)
Theorem repeat_single_not_repeated :
  exists p p' q q',
    run (start tA ++ [EvSetRepeat single]) init = Some p /\
    repeat p = single /\ currentlyPlaying p = Some (itemOf tA) /\ queue p = [] /\
    dequeue p = (Some (itemOf tA), p) /\
    playNext p = (p, Returned) /\
    step EvIdle p = Some p' /\
    status p' = Idle /\ inflight p' = [] /\ invoked p' = [Some (t_url tA)] /\
    run (start tA ++ [EvSetRepeat single; EvPush [tB; tC; tD]; EvPlayTail]) init = Some q /\
    repeat q = single /\ currentlyPlaying q = Some (itemOf tA) /\
    queue q = [itemOf tB; itemOf tC; itemOf tD] /\
    step EvIdle q = Some q' /\
    inflight q' = [itemOf tA] /\ queue q' = [itemOf tD].
Proof.
  exists (after (start tA ++ [EvSetRepeat single])),
    (after (start tA ++ [EvSetRepeat single; EvIdle])),
    (after (start tA ++ [EvSetRepeat single; EvPush [tB; tC; tD]; EvPlayTail])),
    (after (start tA ++ [EvSetRepeat single; EvPush [tB; tC; tD]; EvPlayTail; EvIdle])).
  evaluate.
Qed.

(** ** Further properties of the code *)

(** *** Resolving a query *)

Lemma truthy_nonempty (o : option string) (s : string) : truthy o = Some s -> s <> "".
Proof.
  unfold truthy. destruct o as [x|]; [|discriminate].
  destruct (String.eqb x "") eqn:E; [discriminate|].
  intros H; inversion H; subst. now apply String.eqb_neq.
Qed.

(** X3.  [findYoutubeVideo] throws in no case.  It gives [null] exactly when
    the search call throws or has no video id and the yt-dlp search gives no
    URL either; what it gives otherwise is never the empty string, and an
    id of the search call is used without looking at yt-dlp. *)
Theorem findYoutubeVideo_null_iff (api : Call (option string)) (fallback : YtDlpSearch) :
  let videoId := match api with Returns v => truthy v | Throws => None end in
  (findYoutubeVideo api fallback = None <->
     videoId = None /\ findVideoWithYtDlp fallback = None) /\
  (forall u, findYoutubeVideo api fallback = Some u -> u <> "") /\
  (forall id, videoId = Some id ->
     findYoutubeVideo api fallback =
       Some (String.append "https://www.youtube.com/watch?v=" id)).
Proof.
  unfold findYoutubeVideo.
  destruct api as [|v]; simpl; [|destruct (truthy v) as [id|] eqn:Ev]; repeat split;
    try tauto; try discriminate; try (intros [H _]; discriminate H);
    try (intros id' H; inversion H; subst; reflexivity).
  - intros u. unfold findVideoWithYtDlp.
    destruct fallback as [| |[w|]]; try discriminate. apply truthy_nonempty.
  - intros u H. inversion H. discriminate.
  - intros u. unfold findVideoWithYtDlp.
    destruct fallback as [| |[w|]]; try discriminate. apply truthy_nonempty.
Qed.

Lemma string_append_assoc (a b c : string) :
  String.append (String.append a b) c = String.append a (String.append b c).
Proof. induction a as [|x a IH]; simpl; [reflexivity | now rewrite IH]. Qed.

Lemma includes_unfold (s sub : string) :
  includes s sub =
    if String.prefix sub s then true
    else match s with
         | EmptyString => false
         | String _ rest => includes rest sub
         end.
Proof. destruct s; reflexivity. Qed.

Lemma prefix_append (sub rest : string) : String.prefix sub (String.append sub rest) = true.
Proof.
  induction sub as [|c sub IH]; simpl; [now destruct rest|].
  destruct (ascii_dec c c) as [_|Hne]; [assumption | now contradiction Hne].
Qed.

Lemma prefix_split (sub : string) :
  forall s, String.prefix sub s = true -> exists rest, s = String.append sub rest.
Proof.
  induction sub as [|c sub IH]; intros s H.
  - now exists s.
  - destruct s as [|d s]; simpl in H; [discriminate|].
    destruct (ascii_dec c d) as [->|]; [|discriminate].
    destruct (IH s H) as (rest & ->). now exists rest.
Qed.

(** [includes] finds exactly the substrings. *)
Lemma includes_spec (sub s : string) :
  includes s sub = true <->
  exists a b, s = String.append a (String.append sub b).
Proof.
  split.
  - induction s as [|c s IH]; rewrite includes_unfold;
      destruct (String.prefix sub _) eqn:Hp.
    + intros _. destruct (prefix_split _ _ Hp) as (rest & E). now exists "", rest.
    + discriminate.
    + intros _. destruct (prefix_split _ _ Hp) as (rest & E). now exists "", rest.
    + intros H. destruct (IH H) as (a & b & ->). now exists (String c a), b.
  - intros (a & b & ->). induction a as [|c a IH]; rewrite includes_unfold.
    + simpl. now rewrite prefix_append.
    + destruct (String.prefix sub _); [reflexivity | exact IH].
Qed.

(** X4.  [play] takes a query as a Spotify link exactly when it contains
    [spotify.com] somewhere, whatever else it is; and the link of a single
    YouTube video that carries a [list=] parameter is never handled as a
    single video. *)
Theorem classify_by_substring (query : string) :
  (classify query = SpotifyQuery <->
     exists a b, query = String.append a (String.append "spotify.com" b)) /\
  ((exists a b c,
      query = String.append a
                (String.append "youtube.com" (String.append b (String.append "list=" c)))) ->
   classify query = SpotifyQuery \/ classify query = YoutubePlaylistQuery).
Proof.
  unfold classify, isSpotifyUrl, isYoutubeUrl. split.
  - rewrite <- includes_spec.
    destruct (includes query "spotify.com"); [tauto|].
    split; [|discriminate].
    destruct (includes query "youtube.com" || includes query "youtu.be");
      [destruct (includes query "list=")|]; discriminate.
  - intros (a & b & c & E).
    destruct (includes query "spotify.com"); [now left|right].
    assert (Hy : includes query "youtube.com" = true).
    { apply includes_spec. now exists a, (String.append b (String.append "list=" c)). }
    assert (Hl : includes query "list=" = true).
    { apply includes_spec. exists (String.append a (String.append "youtube.com" b)), c.
      rewrite E. now rewrite !string_append_assoc. }
    now rewrite Hy, Hl.
Qed.

Lemma classify_by_substring_witness :
  classify "https://www.youtube.com/watch?v=abc&list=PL1" = YoutubePlaylistQuery.
Proof.
  destruct (classify_by_substring "https://www.youtube.com/watch?v=abc&list=PL1")
    as [_ H].
  assert (Hq : exists a b c,
             "https://www.youtube.com/watch?v=abc&list=PL1" =
               String.append a
                 (String.append "youtube.com" (String.append b (String.append "list=" c))))
    by (exists "https://www.", "/watch?v=abc&", "PL1"; reflexivity).
  destruct (H Hq) as [Hs|Hp]; [|exact Hp].
  vm_compute in Hs. discriminate Hs.
Defined.

Lemma spotifyEntry_app (items : list Track) (e : SpotifyEntry) :
  spotifyEntry items e = items ++ spotifyEntry [] e.
Proof.
  unfold spotifyEntry, push.
  destruct (negb (sp_track e)); [now rewrite app_nil_r|].
  destruct (truthy (sp_name e)), (truthy (sp_artist e));
    try destruct (findYoutubeVideo _ _); now rewrite ?app_nil_r.
Qed.

Lemma spotify_loop (tracks : list SpotifyEntry) :
  forall items,
    fold_left spotifyEntry tracks items = items ++ flat_map (spotifyEntry []) tracks.
Proof.
  induction tracks as [|e tracks IH]; intros items; simpl.
  - now rewrite app_nil_r.
  - rewrite IH, spotifyEntry_app. now rewrite app_assoc.
Qed.

Lemma spotifyEntry_one (e : SpotifyEntry) :
  List.length (spotifyEntry [] e) <= 1 /\
  Forall (fun t => t_url t <> "") (spotifyEntry [] e).
Proof.
  unfold spotifyEntry, push.
  destruct (negb (sp_track e)); [simpl; split; [lia | constructor]|].
  destruct (truthy (sp_name e)), (truthy (sp_artist e));
    try (simpl; split; [lia | constructor]).
  destruct (findYoutubeVideo _ _) as [videoUrl|] eqn:Ef;
    [|simpl; split; [lia | constructor]].
  simpl. split; [lia|]. constructor; [|constructor]. simpl.
  destruct (findYoutubeVideo_null_iff (sp_api e) (sp_fallback e)) as (_ & Hne & _).
  now apply Hne.
Qed.

Lemma spotify_entries_bound (l : list SpotifyEntry) :
  List.length (flat_map (spotifyEntry []) l) <= List.length l /\
  Forall (fun t => t_url t <> "") (flat_map (spotifyEntry []) l).
Proof.
  induction l as [|x l [IHlen IHurl]]; simpl; [split; [lia | constructor]|].
  destruct (spotifyEntry_one x) as [Hlen Hurl]. split.
  - rewrite length_app. lia.
  - apply Forall_app. now split.
Qed.

(** X5.  The tracks that the playlist branch of [handleSpotifyUrl] returns
    are, in the order of the playlist, one for each entry that has a track
    with a name and an artist and for which a video is found; the others
    are left out without an error.  So there are never more tracks than
    entries, every track has a URL that is not empty, and an empty playlist
    is an error like a failed fetch. *)
Theorem handleSpotifyPlaylist_in_order (playlist : list SpotifyEntry) (items : list Track) :
  handleSpotifyPlaylist (Returns playlist) = Returns items ->
  playlist <> [] /\
  items = flat_map (spotifyEntry []) playlist /\
  List.length items <= List.length playlist /\
  Forall (fun t => t_url t <> "") items.
Proof.
  unfold handleSpotifyPlaylist.
  destruct playlist as [|e rest]; [discriminate|].
  intros H. inversion H as [Hi]. clear H Hi.
  split; [discriminate|].
  change (fold_left spotifyEntry rest (spotifyEntry [] e))
    with (fold_left spotifyEntry (e :: rest) []).
  rewrite spotify_loop. simpl app. split; [reflexivity|].
  exact (spotify_entries_bound (e :: rest)).
Qed.

Definition entry_found : SpotifyEntry :=
  mkSpotifyEntry true (Some "Song") (Some "Artist") 3000 None
    (Returns (Some "abc")) ExecThrows.

Definition entry_without_artist : SpotifyEntry :=
  mkSpotifyEntry true (Some "Other") None 2000 None (Returns (Some "xyz")) ExecThrows.

Lemma handleSpotifyPlaylist_in_order_witness :
  handleSpotifyPlaylist (Returns [entry_without_artist; entry_found]) =
    Returns [mkTrack "Song - Artist" "https://www.youtube.com/watch?v=abc" 3 ""] /\
  1 <= 2.
Proof.
  split; [reflexivity|].
  destruct (@handleSpotifyPlaylist_in_order [entry_without_artist; entry_found]
              [mkTrack "Song - Artist" "https://www.youtube.com/watch?v=abc" 3 ""]
              eq_refl) as (_ & _ & Hlen & _).
  exact Hlen.
Defined.

(** *** [handleYoutubePlaylist] *)

(** An entry that the loop pushes: it has a video id. *)
Definition has_videoId (e : PlaylistEntry) : bool :=
  match truthy (pe_videoId e) with
  | Some _ => true
  | None => false
  end.

Lemma pushPlaylist_appends (entries : list PlaylistEntry) :
  forall p p' completed,
    pushPlaylist entries p = (p', completed) ->
    exists added,
      p' = set_queue (queue p ++ map itemOf added) p /\
      List.length added <= List.length (filter has_videoId entries) /\
      (completed = true ->
       List.length added = List.length (filter has_videoId entries)).
Proof.
  induction entries as [|e entries IH]; intros p p' completed H.
  - inversion H; subst. exists []. simpl. rewrite app_nil_r, set_queue_same. auto.
  - cbn [pushPlaylist] in H. cbn [filter].
    destruct (truthy (pe_videoId e)) as [videoId|] eqn:Et;
      (assert (Hv : has_videoId e = match truthy (pe_videoId e) with
                                    | Some _ => true
                                    | None => false
                                    end) by reflexivity);
      rewrite Et in Hv; rewrite !Hv.
    + destruct (pe_info e) as [|seconds].
      * inversion H; subst. exists []. cbn [map List.length].
        rewrite app_nil_r, set_queue_same. repeat split; [lia | discriminate].
      * destruct (IH _ _ _ H) as (added & -> & Hle & Hc).
        exists (playlistTrack videoId e seconds :: added).
        cbn [map List.length]. split; [|split].
        -- unfold enqueue, push. cbn [queue set_queue map].
           rewrite <- app_assoc. reflexivity.
        -- lia.
        -- intros Hd. now rewrite (Hc Hd).
    + destruct (IH _ _ _ H) as (added & -> & Hle & Hc). now exists added.
Qed.





Definition entry_ok : PlaylistEntry :=
  mkPlaylistEntry (Some "abc") (Some "First") None (Returns 185).


Definition entry_without_id : PlaylistEntry :=
  mkPlaylistEntry None (Some "Deleted video") None (Returns 0).


(** X7.  The number that [handleYoutubePlaylist] reports as added is the
    number of entries of the playlist; what it added is one item for each
    entry with a video id, so the report is too high by the number of
    entries without one. *)
Theorem playlist_reply_counts_entries (entries : list PlaylistEntry)
    (p p' : MusicPlayer) (count : nat) :
  handleYoutubePlaylist (Returns entries) p = (p', PlaylistAdded count) ->
  count = List.length entries /\
  List.length (queue p') = List.length (queue p) + List.length (filter has_videoId entries) /\
  List.length (queue p') + List.length (filter (fun e => negb (has_videoId e)) entries)
    = List.length (queue p) + count.
Proof.
  unfold handleYoutubePlaylist.
  destruct entries as [|e entries]; [discriminate|].
  destruct (pushPlaylist (e :: entries) p) as [p1 completed] eqn:Hp.
  destruct completed; [|discriminate].
  intros H; inversion H; subst.
  destruct (pushPlaylist_appends _ _ Hp) as (added & -> & _ & Hc).
  specialize (Hc eq_refl).
  assert (Hq : List.length (queue (set_queue (queue p ++ map itemOf added) p))
               = List.length (queue p) + List.length (filter has_videoId (e :: entries))).
  { simpl queue. now rewrite length_app, length_map, Hc. }
  split; [reflexivity|]. split; [exact Hq|]. rewrite Hq.
  pose proof (filter_length has_videoId (e :: entries)) as Hf.
  cbn [List.length] in Hf. lia.
Qed.

Lemma playlist_reply_counts_entries_witness :
  handleYoutubePlaylist (Returns [entry_without_id; entry_ok]) init
    = (enqueue [playlistTrack "abc" entry_ok 185] init, PlaylistAdded 2).
Proof.
  assert (H : handleYoutubePlaylist (Returns [entry_without_id; entry_ok]) init
              = (enqueue [playlistTrack "abc" entry_ok 185] init, PlaylistAdded 2))
    by reflexivity.
  destruct (playlist_reply_counts_entries _ _ H) as (Hc & _).
  exact H.
Defined.

(** *** The sessions of [index.ts] *)

Lemma sessions_get_set (g : string) (p : MusicPlayer) (m : Sessions) :
  sessions_get g (sessions_set g p m) = Some p.
Proof.
  induction m as [|[g0 q] m IH]; simpl.
  - now rewrite String.eqb_refl.
  - destruct (String.eqb g g0) eqn:E; simpl; now rewrite E.
Qed.

Lemma sessions_get_set_other (g g' : string) (p : MusicPlayer) (m : Sessions) :
  g' <> g -> sessions_get g' (sessions_set g p m) = sessions_get g' m.
Proof.
  intros Hne. induction m as [|[g0 q] m IH]; simpl.
  - apply String.eqb_neq in Hne. now rewrite Hne.
  - destruct (String.eqb g g0) eqn:E; simpl.
    + apply String.eqb_eq in E. subst g0.
      apply String.eqb_neq in Hne. now rewrite Hne.
    + destruct (String.eqb g' g0); [reflexivity | exact IH].
Qed.

(** X8.  A command of one guild changes no player of another guild, and
    acts on the player that its guild already has: a player is made only
    for a guild that has none, and is kept from then on. *)
Theorem sessions_independent (g g' : string) (cmd : Command) (m : Sessions) :
  g' <> g ->
  let m' := interactionCreate true (Some g) cmd m in
  sessions_get g' m' = sessions_get g' m /\
  sessions_get g m' =
    Some (runCommand cmd (match sessions_get g m with Some p => p | None => init end)) /\
  (forall h, sessions_get h m <> None -> sessions_get h m' <> None).
Proof.
  intros Hne. unfold interactionCreate. simpl.
  split; [now apply sessions_get_set_other|].
  split; [apply sessions_get_set|].
  intros h Hh. destruct (String.eqb h g) eqn:E.
  - apply String.eqb_eq in E. subst h. rewrite sessions_get_set. discriminate.
  - apply String.eqb_neq in E. now rewrite sessions_get_set_other.
Qed.

Lemma sessions_independent_witness :
  sessions_get "guild-2"
    (interactionCreate true (Some "guild-1") CmdStop
       [("guild-1", playing_A_queued_BC); ("guild-2", playing_A_queued_BC)])
    = Some playing_A_queued_BC.
Proof.
  apply (@sessions_independent "guild-1" "guild-2" CmdStop
           [("guild-1", playing_A_queued_BC); ("guild-2", playing_A_queued_BC)]).
  discriminate.
Defined.

(** *** [downloadVideo] *)

Lemma handle_keeps_settled ev (s : Pipeline.Pipe) :
  Pipeline.promise s <> Pipeline.Pending ->
  Pipeline.promise (Pipeline.handle ev s) = Pipeline.promise s.
Proof.
  intros H. unfold Pipeline.handle.
  destruct (Pipeline.emitter ev s); try reflexivity;
    destruct (Pipeline.listening (Pipeline.emit ev s));
    destruct ev; simpl; try reflexivity;
    destruct (Pipeline.promise s); simpl; try reflexivity; now contradiction H.
Qed.

(** X9.  The promise of [downloadVideo] is settled when the call returns,
    fulfilled with the output of ffmpeg unless a [spawn] threw, and nothing
    that the two processes emit afterwards changes it: a failure of a stage
    after the start never reaches the caller. *)
Theorem downloadVideo_outcome_final (url : option string) (sp : Pipeline.Spawn)
    (evs : list Pipeline.Event) :
  Pipeline.promise (Pipeline.downloadVideo url sp) <> Pipeline.Pending /\
  Pipeline.promise (Pipeline.handle_all evs (Pipeline.downloadVideo url sp))
    = Pipeline.promise (Pipeline.downloadVideo url sp) /\
  (Pipeline.first_throw sp = None <->
   Pipeline.promise (Pipeline.handle_all evs (Pipeline.downloadVideo url sp))
     = Pipeline.Fulfilled Pipeline.ffmpeg_stdout).
Proof.
  assert (Hs : Pipeline.promise (Pipeline.downloadVideo url sp) <> Pipeline.Pending).
  { rewrite downloadVideo_settled. destruct (Pipeline.first_throw sp); discriminate. }
  assert (Hf : forall s, Pipeline.promise s <> Pipeline.Pending ->
                 Pipeline.promise (Pipeline.handle_all evs s) = Pipeline.promise s).
  { unfold Pipeline.handle_all. induction evs as [|ev evs IH]; intros s H; simpl;
      [reflexivity|].
    rewrite IH; [now apply handle_keeps_settled|].
    now rewrite handle_keeps_settled. }
  split; [exact Hs|]. split; [now apply Hf|].
  rewrite Hf by exact Hs. rewrite downloadVideo_settled.
  destruct (Pipeline.first_throw sp); split; try reflexivity; discriminate.
Qed.

(** A [spawn] that throws at once, as it does when the system cannot
    create one more process. *)
Definition ENOMEM : Pipeline.NodeError :=
  Pipeline.mkNodeError "spawn ENOMEM" (Some "ENOMEM").

(** The executor left its [try] block at the [spawn] of ffmpeg or before:
    no listener, no ffmpeg, a bar that was created only. *)
Definition unregistered (s : Pipeline.Pipe) : Prop :=
  Pipeline.listening s = false /\
  Pipeline.ffmpeg s = Pipeline.NotSpawned /\
  Pipeline.progressBar s = Pipeline.Created.

Lemma handle_unregistered ev (s : Pipeline.Pipe) :
  unregistered s ->
  unregistered (Pipeline.handle ev s) /\
  (Pipeline.ytdlp s = Pipeline.NotSpawned ->
   Pipeline.ytdlp (Pipeline.handle ev s) = Pipeline.NotSpawned).
Proof.
  intros (Hl & Hf & Hb). unfold Pipeline.handle.
  destruct s as [src pr y f b pi]. unfold Pipeline.listening in *.
  simpl in Hl, Hf, Hb. subst.
  destruct ev, y; simpl; repeat split; auto; discriminate.
Qed.

Lemma handle_all_unregistered evs :
  forall s : Pipeline.Pipe,
    unregistered s ->
    unregistered (Pipeline.handle_all evs s) /\
    (Pipeline.ytdlp s = Pipeline.NotSpawned ->
     Pipeline.ytdlp (Pipeline.handle_all evs s) = Pipeline.NotSpawned).
Proof.
  unfold Pipeline.handle_all.
  induction evs as [|ev evs IH]; simpl; intros s H; [split; auto|].
  destruct (handle_unregistered ev H) as [H1 Hy].
  destruct (IH _ H1) as [H2 Hy2]. split; [exact H2|].
  intros E. apply Hy2, Hy, E.
Qed.

(** X18.  When a [spawn] of [downloadVideo] throws, the promise is rejected
    with that error and stays so whatever yt-dlp emits afterwards; ffmpeg
    was not started, the progress bar was created and never started, and no
    listener was registered.  When it is the [spawn] of ffmpeg that throws,
    yt-dlp has been started: it is left running, and nothing kills it. *)
Theorem spawn_throw_leaves_no_listener (url : option string) (sp : Pipeline.Spawn)
    (e : Pipeline.NodeError) (evs : list Pipeline.Event) :
  Pipeline.first_throw sp = Some e ->
  let s := Pipeline.handle_all evs (Pipeline.downloadVideo url sp) in
  Pipeline.promise s = Pipeline.Rejected e /\
  Pipeline.listening s = false /\
  Pipeline.ffmpeg s = Pipeline.NotSpawned /\
  Pipeline.progressBar s = Pipeline.Created /\
  Pipeline.ytdlp s <> Pipeline.Killed /\
  (Pipeline.ytdlp_throws sp <> None -> Pipeline.ytdlp s = Pipeline.NotSpawned) /\
  (Pipeline.ytdlp_throws sp = None ->
   Pipeline.running (Pipeline.ytdlp (Pipeline.downloadVideo url sp)) = true).
Proof.
  intros Hthrow s.
  assert (Hu : unregistered (Pipeline.downloadVideo url sp)).
  { unfold Pipeline.downloadVideo, Pipeline.first_throw in *.
    destruct (Pipeline.ytdlp_throws sp), (Pipeline.ffmpeg_throws sp);
      try discriminate; repeat split. }
  destruct (handle_all_unregistered evs Hu) as ((Hl & Hf & Hb) & Hy).
  split; [|split; [|split; [|split; [|split; [|split]]]]]; try assumption.
  - apply handle_all_settled. rewrite downloadVideo_settled. now rewrite Hthrow.
  - apply handle_all_never_kills. unfold Pipeline.downloadVideo.
    destruct (Pipeline.ytdlp_throws sp), (Pipeline.ffmpeg_throws sp);
      simpl; split; discriminate.
  - intros Hn. apply Hy. unfold Pipeline.downloadVideo.
    destruct (Pipeline.ytdlp_throws sp); [reflexivity | now contradiction Hn].
  - intros Hn. unfold Pipeline.downloadVideo, Pipeline.first_throw in *.
    rewrite Hn in *. now rewrite Hthrow.
Qed.

Lemma spawn_throw_leaves_no_listener_witness :
  Pipeline.promise
    (Pipeline.handle_all [Pipeline.ytdlp_error ENOENT]
       (Pipeline.downloadVideo (Some (t_url tA))
          (Pipeline.mkSpawn None (Some ENOMEM)))) = Pipeline.Rejected ENOMEM /\
  Pipeline.running
    (Pipeline.ytdlp
       (Pipeline.downloadVideo (Some (t_url tA))
          (Pipeline.mkSpawn None (Some ENOMEM)))) = true.
Proof.
  destruct (@spawn_throw_leaves_no_listener (Some (t_url tA))
              (Pipeline.mkSpawn None (Some ENOMEM)) ENOMEM
              [Pipeline.ytdlp_error ENOENT] eq_refl)
    as (Hp & _ & _ & _ & _ & _ & Hr).
  split; [exact Hp | apply Hr; reflexivity].
Defined.

(** *** The end of a track *)

Lemma shift_skipn {A : Type} (q : list A) : snd (shift q) = skipn 1 q.
Proof. now destruct q. Qed.

Lemma remove_first_head (c : QueueItem) (l : list QueueItem) :
  remove_first c (c :: l) = l.
Proof.
  simpl. destruct (QueueItem_eq_dec c c) as [_|Hne]; [reflexivity | now contradiction Hne].
Qed.

(** What the [onStateChange] listeners do together when the player becomes
    idle: each one removes itself, shifts the queue once and sets a timer. *)
Lemma emit_idle (oldS : AudioPlayerStatus) (ls : list QueueItem) :
  oldS <> Idle ->
  forall p, listeners p = ls ->
    fold_left (fun acc c => onStateChange c oldS Idle acc) ls p
    = set_timers (timers p ++ List.repeat 1000 (List.length ls))
        (set_queue (skipn (List.length ls) (queue p)) (set_listeners [] p)).
Proof.
  intros Hold.
  assert (Hb : negb (AudioPlayerStatus_eqb oldS Idle) = true)
    by (destruct oldS; try reflexivity; now contradiction Hold).
  induction ls as [|c ls IH]; intros p Hl.
  - simpl. rewrite app_nil_r. destruct p; simpl in *. now subst.
  - cbn [fold_left]. unfold onStateChange at 2. rewrite Hb, Hl, remove_first_head.
    rewrite IH by reflexivity.
    unfold setTimeout. cbn [timers queue set_timers set_queue set_listeners List.length].
    rewrite shift_skipn, skipn_skipn, <- app_assoc.
    replace (List.length ls + 1) with (S (List.length ls)) by lia.
    reflexivity.
Qed.

Lemma audioPlayer_end_eq (p : MusicPlayer) :
  status p <> Idle ->
  audioPlayer_end p
  = onIdle
      (set_timers (timers p ++ List.repeat 1000 (List.length (listeners p)))
         (set_queue (skipn (List.length (listeners p)) (queue p))
            (set_listeners [] (set_status Idle (set_stopRequested false p))))).
Proof.
  intros Hs. unfold audioPlayer_end, setState.
  cbn [status set_stopRequested set_status listeners].
  rewrite (@emit_idle (status p) (listeners p) Hs) by reflexivity.
  destruct (status p); try reflexivity. now contradiction Hs.
Qed.

(** Under repeat [off], [playNext] takes the head of the queue, if there
    is one, and starts its download. *)
Lemma playNext_off (p : MusicPlayer) :
  repeat p = off ->
  queue (fst (playNext p)) = skipn 1 (queue p) /\
  listeners (fst (playNext p)) = listeners p /\
  timers (fst (playNext p)) = timers p /\
  invoked (fst (playNext p)) = invoked p ++ match queue p with
                                            | next :: _ => [url next]
                                            | [] => []
                                            end /\
  currentlyPlaying (fst (playNext p)) = currentlyPlaying p /\
  status (fst (playNext p)) = status p.
Proof.
  intros Hr. unfold playNext, dequeue. rewrite Hr.
  destruct (queue p) as [|next rest] eqn:Hq; cbn [List.length Nat.eqb andb negb
                                                  RepeatMode_eqb fst shift skipn].
  - rewrite app_nil_r. repeat split. exact Hq.
  - destruct p as [q0 conn dl cp rp st sr ls tm infl aw inv unl]; cbn. repeat split.
Qed.

Lemma onIdle_off (p : MusicPlayer) :
  repeat p = off ->
  queue (onIdle p) = skipn 2 (queue p) /\
  listeners (onIdle p) = listeners p /\
  timers (onIdle p) = timers p /\
  invoked (onIdle p) = invoked p ++ match nth_error (queue p) 1 with
                                    | Some next => [url next]
                                    | None => []
                                    end /\
  currentlyPlaying (onIdle p) = currentlyPlaying p /\
  status (onIdle p) = status p.
Proof.
  intros Hr. unfold onIdle.
  destruct (shift (queue p)) as [finished rest] eqn:Hs.
  assert (Hrest : rest = skipn 1 (queue p))
    by (rewrite <- shift_skipn, Hs; reflexivity).
  set (p2 := match truthy_path finished with
             | Some path => set_unlinked (unlinked (set_queue rest p) ++ [path])
                              (set_queue rest p)
             | None => set_queue rest p
             end).
  assert (H2 : queue p2 = rest /\ repeat p2 = off /\ listeners p2 = listeners p /\
               timers p2 = timers p /\ invoked p2 = invoked p /\
               currentlyPlaying p2 = currentlyPlaying p /\ status p2 = status p).
  { subst p2. destruct (truthy_path finished); cbn; repeat split; assumption. }
  destruct H2 as (Q2 & R2 & L2 & T2 & V2 & C2 & S2).
  destruct (playNext_off p2 R2) as (Q & L & T & V & C & S).
  rewrite Q, L, T, V, C, S, Q2, L2, T2, V2, C2, S2, Hrest.
  rewrite skipn_skipn. cbn [Nat.add].
  replace (nth_error (queue p) 1) with (nth_error (skipn 1 (queue p)) 0)
    by (rewrite nth_error_skipn; reflexivity).
  repeat split. now destruct (skipn 1 (queue p)).
Qed.

(** X10.  Under repeat [off], when the player becomes idle with [k]
    listeners of [playNext] on it, the queue loses its first [k + 2] items
    (all of them, if it has fewer): [k] to the listeners, one to the [Idle]
    listener of the constructor, and one to [playNext], which is the only
    one of them that is downloaded.  No listener is left, and [k] timers of
    one second are added. *)
Theorem completion_removes_listeners_plus_two (p : MusicPlayer) :
  status p <> Idle -> repeat p = off ->
  let k := List.length (listeners p) in
  let p' := audioPlayer_end p in
  queue p' = skipn (k + 2) (queue p) /\
  listeners p' = [] /\
  timers p' = timers p ++ List.repeat 1000 k /\
  invoked p' = invoked p ++ match nth_error (queue p) (k + 1) with
                            | Some next => [url next]
                            | None => []
                            end /\
  currentlyPlaying p' = currentlyPlaying p /\
  status p' = Idle.
Proof.
  intros Hs Hr k p'. subst p'. rewrite audioPlayer_end_eq by assumption. fold k.
  match goal with |- context [onIdle ?s] => set (p1 := s) end.
  destruct (onIdle_off p1 Hr) as (Q & L & T & V & C & S).
  rewrite Q, L, T, V, C, S. subst p1.
  cbn [queue listeners timers invoked currentlyPlaying status
       set_timers set_queue set_listeners set_status set_stopRequested].
  rewrite skipn_skipn, nth_error_skipn.
  replace (2 + k) with (k + 2) by lia.
  repeat split.
Qed.

Lemma completion_removes_listeners_plus_two_witness :
  queue (audioPlayer_end playing_A_queued_BC) = [] /\
  invoked (audioPlayer_end playing_A_queued_BC) = [Some (t_url tA)].
Proof.
  destruct (@completion_removes_listeners_plus_two playing_A_queued_BC)
    as (Hq & _ & _ & Hi & _); [discriminate | reflexivity |].
  split; [exact Hq | exact Hi].
Defined.

(** X11.  When the last track ends (the queue is empty, repeat is not
    [all]), nothing is downloaded and the player is idle, but [nowPlaying]
    answers as before: it goes on showing the track that ended, while
    [showQueue] says that the queue is empty. *)
Theorem last_track_end_keeps_nowPlaying (p : MusicPlayer) :
  status p <> Idle -> queue p = [] -> repeat p <> all ->
  let p' := audioPlayer_end p in
  nowPlaying p' = nowPlaying p /\
  showQueue p' = QueueIsEmpty /\
  status p' = Idle /\
  invoked p' = invoked p /\ inflight p' = inflight p.
Proof.
  intros Hs Hq Hr p'. subst p'. rewrite audioPlayer_end_eq by assumption.
  rewrite Hq, skipn_nil.
  unfold onIdle, playNext, nowPlaying, showQueue.
  destruct p as [q0 conn dl cp rp st sr ls tm infl aw inv unl]; simpl in *; subst.
  destruct rp; simpl; repeat split. now contradiction Hr.
Qed.

Lemma last_track_end_keeps_nowPlaying_witness :
  nowPlaying (audioPlayer_end (after (start tA)))
    = NowPlayingEmbed "[A](https://youtu.be/a)" "a.jpg" "3:05".
Proof.
  destruct (@last_track_end_keeps_nowPlaying (after (start tA)))
    as (Hn & _); [discriminate | reflexivity | discriminate |].
  rewrite Hn. reflexivity.
Defined.

(** *** Requests and retries *)

Lemma run_cons (ev : Event) (evs : list Event) (p p1 : MusicPlayer) :
  step ev p = Some p1 -> run (ev :: evs) p = run evs p1.
Proof. intros H. simpl. now rewrite H. Qed.

Lemma run_cons_last (ev : Event) (p p1 : MusicPlayer) :
  step ev p = Some p1 -> run [ev] p = Some p1.
Proof. intros H. simpl. now rewrite H. Qed.

(** X12.  Under repeat [off], a video requested while the queue is empty is
    dequeued and downloaded at once, whatever the audio player is doing:
    when its resource is given to the player it becomes the current track
    in place of the one that was playing, whose listeners stay. *)
Theorem request_on_empty_queue_takes_over (p : MusicPlayer) (t : Track) :
  repeat p = off -> queue p = [] -> downloading p = false ->
  inflight p = [] -> awaiting p = [] -> connection p <> None ->
  exists p',
    run [EvPush [t]; EvPlayTail; EvDownloaded spawned; EvReady 0 true] p = Some p' /\
    currentlyPlaying p' = Some (itemOf t) /\
    status p' = Buffering /\
    queue p' = [] /\
    invoked p' = invoked p ++ [Some (t_url t)] /\
    listeners p' = listeners p ++ [itemOf t].
Proof.
  intros Hr Hq Hd Hi Ha Hc.
  destruct p as [q0 conn dl cp rp st sr ls tm infl aw inv unl].
  cbn [repeat queue downloading inflight awaiting connection invoked listeners]
    in Hr, Hq, Hd, Hi, Ha, Hc |- *.
  subst. destruct conn as [v|]; [|now contradiction Hc].
  set (c := itemOf t).
  set (base := mkMusicPlayer [] (Some v) false cp off st sr ls tm [] [] inv unl).
  rewrite (@run_cons (EvPush [t]) _ base (set_queue [c] base)) by reflexivity.
  rewrite (@run_cons EvPlayTail _ _
             (set_inflight [c]
                (set_invoked (inv ++ [Some (t_url t)]) (set_downloading true base))))
    by reflexivity.
  rewrite (@run_cons (EvDownloaded spawned) _ _
             (set_awaiting [c] (set_invoked (inv ++ [Some (t_url t)]) base)))
    by reflexivity.
  cbn [run]. unfold step. cbn [is_task andb negb no_inflight inflight set_awaiting
                               set_invoked base].
  unfold playNext_ready. cbn [awaiting set_awaiting nth_error].
  rewrite audioPlayer_play_eq.
  eexists. split; [reflexivity|]. repeat split.
Qed.

Lemma request_on_empty_queue_takes_over_witness :
  exists p',
    run [EvPush [tB]; EvPlayTail; EvDownloaded spawned; EvReady 0 true]
      (after (start tA)) = Some p' /\
    currentlyPlaying (after (start tA)) = Some (itemOf tA) /\
    status (after (start tA)) = Playing /\
    currentlyPlaying p' = Some (itemOf tB).
Proof.
  assert (H1 : repeat (after (start tA)) = off) by (vm_compute; reflexivity).
  assert (H2 : queue (after (start tA)) = []) by (vm_compute; reflexivity).
  assert (H3 : downloading (after (start tA)) = false) by (vm_compute; reflexivity).
  assert (H4 : inflight (after (start tA)) = []) by (vm_compute; reflexivity).
  assert (H5 : awaiting (after (start tA)) = []) by (vm_compute; reflexivity).
  assert (H6 : connection (after (start tA)) <> None) by (vm_compute; discriminate).
  destruct (@request_on_empty_queue_takes_over (after (start tA)) tB H1 H2 H3 H4 H5 H6)
    as (p' & Hrun & Hcp & _).
  exists p'. split; [exact Hrun|].
  split; [vm_compute; reflexivity|]. split; [vm_compute; reflexivity | exact Hcp].
Defined.

Lemma retry_empty_all (p : MusicPlayer) :
  queue p = [] -> repeat p = all -> inflight p = [] -> timers p <> [] ->
  exists p',
    step (EvTimer 0) p = Some p' /\
    queue p' = [] /\ repeat p' = all /\ inflight p' = [] /\
    invoked p' = invoked p /\ status p' = status p /\
    List.length (timers p') = List.length (timers p).
Proof.
  intros Hq Hr Hi Ht.
  destruct p as [q0 conn dl cp rp st sr ls tm infl aw inv unl]; simpl in *; subst.
  destruct tm as [|ms tm]; [now contradiction Ht|].
  eexists. split; [reflexivity|]. cbn. repeat split.
  rewrite length_app. simpl. lia.
Qed.

(** X13.  Under repeat [all] with an empty queue, every retry timer that
    fires ends in the [catch] block of [playNext] and sets the next timer:
    however many fire, nothing is downloaded, the queue stays empty, and
    as many timers are pending as before.  The retries have no end. *)
Theorem empty_queue_repeat_all_retries_forever (n : nat) :
  forall p,
    queue p = [] -> repeat p = all -> inflight p = [] -> timers p <> [] ->
    exists p',
      run (List.repeat (EvTimer 0) n) p = Some p' /\
      queue p' = [] /\ invoked p' = invoked p /\ status p' = status p /\
      timers p' <> [] /\ List.length (timers p') = List.length (timers p).
Proof.
  induction n as [|n IH]; intros p Hq Hr Hi Ht.
  - exists p. repeat split; assumption.
  - destruct (retry_empty_all p Hq Hr Hi Ht) as (p1 & Hs & Hq1 & Hr1 & Hi1 & Hv1 & Hs1 & Hl1).
    assert (Ht1 : timers p1 <> []).
    { intros E. rewrite E in Hl1. destruct (timers p); [now apply Ht | discriminate]. }
    destruct (IH p1 Hq1 Hr1 Hi1 Ht1) as (p' & Hrun & Hq' & Hv' & Hs' & Ht' & Hl').
    exists p'. cbn [List.repeat run]. rewrite Hs.
    repeat split; try assumption; congruence.
Qed.

Lemma empty_queue_repeat_all_retries_forever_witness :
  exists p',
    run (List.repeat (EvTimer 0) 10) (after all_after_A) = Some p' /\
    invoked p' = [Some (t_url tA)].
Proof.
  assert (H1 : queue (after all_after_A) = []) by (vm_compute; reflexivity).
  assert (H2 : repeat (after all_after_A) = all) by (vm_compute; reflexivity).
  assert (H3 : inflight (after all_after_A) = []) by (vm_compute; reflexivity).
  assert (H4 : timers (after all_after_A) <> []) by (vm_compute; discriminate).
  destruct (@empty_queue_repeat_all_retries_forever 10 (after all_after_A) H1 H2 H3 H4)
    as (p' & Hrun & _ & Hv & _).
  exists p'. split; [exact Hrun|]. rewrite Hv. vm_compute. reflexivity.
Defined.

(** X14.  While the connection is [null] under repeat [off], a retry
    dequeues the head of the queue and starts its download, then fails at
    the connection test; its [catch] block drops the next item as well and
    sets the next timer.  Each retry costs the queue two items, and no
    track becomes the current one. *)
Theorem retry_without_connection_drains_queue (p : MusicPlayer)
    (head : QueueItem) (rest : list QueueItem) :
  connection p = None -> repeat p = off -> inflight p = [] ->
  timers p <> [] -> queue p = head :: rest ->
  exists p',
    run [EvTimer 0; EvDownloaded spawned] p = Some p' /\
    queue p' = skipn 1 rest /\
    invoked p' = invoked p ++ [url head] /\
    currentlyPlaying p' = None /\
    status p' = status p /\
    connection p' = None /\ inflight p' = [] /\ repeat p' = off /\
    timers p' = skipn 1 (timers p) ++ [5000].
Proof.
  intros Hc Hr Hi Ht Hq.
  destruct p as [q0 conn dl cp rp st sr ls tm infl aw inv unl].
  cbn [connection repeat inflight timers queue invoked status currentlyPlaying]
    in Hc, Hr, Hi, Ht, Hq |- *.
  subst. destruct tm as [|ms tm]; [now contradiction Ht|].
  exists (mkMusicPlayer (skipn 1 rest) None false None off st sr ls (tm ++ [5000])
            [] aw (inv ++ [url head]) unl).
  split; [|repeat split].
  rewrite (@run_cons (EvTimer 0) _ _
             (mkMusicPlayer rest None true cp off st sr ls tm [head] aw
                (inv ++ [url head]) unl))
    by (destruct cp; reflexivity).
  apply run_cons_last. destruct rest; reflexivity.
Qed.

(** The connection was lost after a failed download, and three tracks were
    queued then. *)
Definition disconnected_ABC : list Event :=
  [EvEnsureConnection true; EvPush [tA]; EvPlayTail;
   EvDownloaded (Pipeline.mkSpawn (Some ENOENT) None);
   EvDisconnected false; EvPush [tA; tB; tC]].

Lemma retry_without_connection_drains_queue_witness :
  run disconnected_ABC init <> None /\
  exists p',
    run [EvTimer 0; EvDownloaded spawned] (after disconnected_ABC) = Some p' /\
    queue p' = [itemOf tC] /\ currentlyPlaying p' = None.
Proof.
  split; [vm_compute; discriminate|].
  assert (H1 : connection (after disconnected_ABC) = None) by (vm_compute; reflexivity).
  assert (H2 : repeat (after disconnected_ABC) = off) by (vm_compute; reflexivity).
  assert (H3 : inflight (after disconnected_ABC) = []) by (vm_compute; reflexivity).
  assert (H4 : timers (after disconnected_ABC) <> []) by (vm_compute; discriminate).
  assert (H5 : queue (after disconnected_ABC) = itemOf tA :: [itemOf tB; itemOf tC])
    by (vm_compute; reflexivity).
  destruct (@retry_without_connection_drains_queue (after disconnected_ABC)
              (itemOf tA) [itemOf tB; itemOf tC] H1 H2 H3 H4 H5)
    as (p' & Hrun & Hq & _ & Hcp & _).
  exists p'. split; [exact Hrun|]. split; [exact Hq | exact Hcp].
Defined.

(** *** After [stop] *)

(** Nothing is queued, suspended or connected, and the downloads so far
    are [urls]. *)
Definition stopped (urls : list (option string)) (p : MusicPlayer) : Prop :=
  queue p = [] /\ inflight p = [] /\ awaiting p = [] /\
  connection p = None /\ invoked p = urls.

Lemma emit_Playing oldS (ls : list QueueItem) :
  forall p, fold_left (fun acc c => onStateChange c oldS Playing acc) ls p = p.
Proof. induction ls as [|c ls IH]; simpl; intros p; [reflexivity | apply IH]. Qed.

Lemma playNext_stopped urls (p : MusicPlayer) :
  stopped urls p -> stopped urls (fst (playNext p)).
Proof.
  intros (Hq & Hi & Ha & Hc & Hv).
  destruct p as [q0 conn dl cp rp st sr ls tm infl aw inv unl]; simpl in *; subst.
  unfold stopped, playNext, dequeue.
  destruct rp, cp; simpl; repeat split.
Qed.

(** Events that come neither from a command nor from a [play] call that is
    still in progress: timers, what the audio player and the voice
    connection emit, and the continuations of [playNext]. *)
Definition unattended (ev : Event) : bool :=
  match ev with
  | EvEnsureConnection _ | EvPush _ | EvPlayTail => false     (* parts of [play] *)
  | EvSetRepeat _ | EvStop | EvDisconnect | EvSkip => false    (* commands *)
  | _ => true
  end.

Lemma step_stopped urls (ev : Event) (p p' : MusicPlayer) :
  unattended ev = true -> stopped urls p -> step ev p = Some p' -> stopped urls p'.
Proof.
  intros Hev H. pose proof H as (Hq & Hi & Ha & Hc & Hv).
  unfold step, no_inflight. rewrite Hi, andb_false_r.
  destruct ev; try discriminate Hev.
  - destruct (nth_error (timers p) i); [|discriminate].
    intros E; inversion E; subst. apply playNext_stopped.
    destruct p; simpl in *. now repeat split.
  - destruct (status p) eqn:Hs; try discriminate.
    intros E; inversion E; subst. unfold setState. rewrite emit_Playing, Hs.
    simpl. destruct p; simpl in *. now repeat split.
  - destruct (status p) eqn:Hs; try discriminate;
      intros E; inversion E; subst;
      (rewrite audioPlayer_end_eq by (rewrite Hs; discriminate));
      rewrite Hq, skipn_nil; unfold onIdle; simpl;
      apply playNext_stopped; destruct p; simpl in *; now repeat split.
  - destruct (status p); try discriminate;
      intros E; inversion E; subst; destruct p; simpl in *; subst; now repeat split.
  - intros E; inversion E; subst. unfold onDisconnected. now rewrite Hc.
  - discriminate.
  - unfold playNext_ready. rewrite Ha. now destruct i.
Qed.

(** A [play] call that was waiting for its resolver when [stop] ran goes
    on after it: it pushes its track and its last statement starts the
    download, with the connection [null].  No command is needed for it. *)
Remark stop_then_pending_play_downloads :
  exists p',
    run [EvPush [tD]; EvPlayTail] (stop playing_A_queued_BC) = Some p' /\
    connection p' = None /\ inflight p' = [itemOf tD] /\
    invoked p' = [Some (t_url tA); Some (t_url tD)].
Proof.
  exists (after (start tA ++ [EvPush [tB; tC]; EvStop; EvPush [tD]; EvPlayTail])).
  evaluate.
Qed.

(** X15.  When [stop] is called while no [playNext] call waits for the
    connection, and no [play] call is still in progress afterwards (none
    pushes to the queue or reaches its last statement), then without a new
    command, whatever timers fire and whatever the audio player and the
    voice connection emit, the queue stays empty, the connection stays
    [null], and nothing is downloaded.  (A [play] call still in progress
    does start a download: [stop_then_pending_play_downloads].) *)
Theorem stop_ends_downloads (evs : list Event) :
  forall p p',
    inflight p = [] -> awaiting p = [] ->
    forallb unattended evs = true ->
    run evs (stop p) = Some p' ->
    queue p' = [] /\ connection p' = None /\ invoked p' = invoked p /\
    inflight p' = [] /\ awaiting p' = [].
Proof.
  assert (H : forall q q', stopped (invoked q) q -> forallb unattended evs = true ->
                run evs q = Some q' -> stopped (invoked q) q').
  { induction evs as [|ev evs IH]; intros q q' Hq Hall Hrun; simpl in *.
    - now inversion Hrun; subst.
    - apply andb_prop in Hall. destruct Hall as [Hev Hall].
      destruct (step ev q) as [q1|] eqn:Hstep; [|discriminate].
      pose proof (step_stopped _ Hev Hq Hstep) as Hq1.
      assert (Hv : invoked q1 = invoked q) by apply Hq1.
      rewrite <- Hv. apply (IH q1); try assumption. now rewrite Hv. }
  intros p p' Hi Ha Hall Hrun.
  assert (Hs : stopped (invoked (stop p)) (stop p)).
  { unfold stopped, stop, audioPlayer_stop. simpl.
    destruct (status p); simpl; now repeat split. }
  destruct (H _ _ Hs Hall Hrun) as (Hq & Hi' & Ha' & Hc & Hv).
  repeat split; try assumption. rewrite Hv.
  unfold stop, audioPlayer_stop. simpl. now destruct (status p).
Qed.

Lemma stop_ends_downloads_witness :
  exists p',
    run [EvIdle; EvTimer 0; EvDisconnected false] (stop playing_A_queued_BC) = Some p' /\
    queue p' = [] /\ invoked p' = [Some (t_url tA)].
Proof.
  exists (after (start tA ++ [EvPush [tB; tC]; EvStop; EvIdle; EvTimer 0;
                              EvDisconnected false])).
  assert (Hrun : run [EvIdle; EvTimer 0; EvDisconnected false] (stop playing_A_queued_BC)
                 = Some (after (start tA ++ [EvPush [tB; tC]; EvStop; EvIdle; EvTimer 0;
                                             EvDisconnected false])))
    by (vm_compute; reflexivity).
  destruct (@stop_ends_downloads [EvIdle; EvTimer 0; EvDisconnected false]
              playing_A_queued_BC _ eq_refl eq_refl eq_refl Hrun) as (Hq & _ & Hv & _).
  split; [exact Hrun|]. split; [exact Hq | exact Hv].
Defined.

(** *** Only requested tracks are downloaded *)

(** The tracks that the requests among the events pushed. *)
Definition requested (evs : list Event) : list Track :=
  flat_map (fun ev => match ev with EvPush ts => ts | _ => [] end) evs.

Section OnlyRequested.

Variable ts : list Track.

(** An item made from one of the tracks [ts]. *)
Definition of_tracks (c : QueueItem) : Prop := In c (map itemOf ts).

(** Every item the player holds is made from a track of [ts], and every
    download was of the URL of one. *)
Definition holds_tracks (p : MusicPlayer) : Prop :=
  Forall of_tracks (queue p) /\
  Forall of_tracks (inflight p) /\
  Forall of_tracks (awaiting p) /\
  (forall c, currentlyPlaying p = Some c -> of_tracks c) /\
  Forall (fun u => In u (map (fun t => Some (t_url t)) ts)) (invoked p).

Lemma of_tracks_url (c : QueueItem) :
  of_tracks c -> In (url c) (map (fun t => Some (t_url t)) ts).
Proof.
  unfold of_tracks. rewrite !in_map_iff.
  intros (t & <- & Ht). now exists t.
Qed.

Local Ltac open_holds p H :=
  destruct p as [q0 conn dl cp rp st sr ls tm infl aw inv unl];
  unfold holds_tracks in *; cbn [queue inflight awaiting currentlyPlaying invoked] in *;
  destruct H as (Hq & Hi & Ha & Hc & Hv).

Lemma playNext_catch_holds p : holds_tracks p -> holds_tracks (playNext_catch p).
Proof.
  intros H. open_holds p H. unfold playNext_catch, setTimeout. simpl.
  repeat split; try assumption; [now apply shift_Forall | discriminate].
Qed.

Lemma playNext_holds p : holds_tracks p -> holds_tracks (fst (playNext p)).
Proof.
  intros H. open_holds p H. unfold playNext, dequeue.
  destruct q0 as [|x rest].
  - destruct rp, cp; simpl; repeat split; try assumption; try constructor;
      try discriminate.
  - inversion Hq as [|? ? Hx Hrest]; subst.
    destruct rp, cp; simpl; rewrite ?spread_some;
      repeat split; try assumption;
      try (apply Forall_app; split; [assumption|]; constructor; [|constructor]);
      try assumption; try (now apply of_tracks_url); try (now apply Hc);
      try (apply of_tracks_url; now apply Hc);
      destruct x; assumption.
Qed.

Lemma onStateChange_holds c oldS newS p :
  holds_tracks p -> holds_tracks (onStateChange c oldS newS p).
Proof.
  intros H. unfold onStateChange.
  destruct newS; try assumption.
  destruct (negb (AudioPlayerStatus_eqb oldS Idle)); [|assumption].
  open_holds p H. unfold setTimeout. simpl.
  repeat split; try assumption. now apply shift_Forall.
Qed.

Lemma emit_holds oldS newS (ls : list QueueItem) :
  forall p, holds_tracks p ->
    holds_tracks (fold_left (fun acc c => onStateChange c oldS newS acc) ls p).
Proof.
  induction ls as [|c ls IH]; simpl; intros p H; [assumption|].
  apply IH. now apply onStateChange_holds.
Qed.

Lemma frame_holds p p' :
  queue p' = queue p -> inflight p' = inflight p -> awaiting p' = awaiting p ->
  currentlyPlaying p' = currentlyPlaying p -> invoked p' = invoked p ->
  holds_tracks p -> holds_tracks p'.
Proof.
  unfold holds_tracks. intros -> -> -> -> ->. exact (fun H => H).
Qed.

Lemma onIdle_holds p : holds_tracks p -> holds_tracks (onIdle p).
Proof.
  intros H. unfold onIdle.
  destruct (shift (queue p)) as [finished rest] eqn:Hs.
  apply playNext_holds.
  assert (Hrest : Forall of_tracks rest).
  { pose proof (shift_Forall (proj1 H)) as [Hr _]. now rewrite Hs in Hr. }
  destruct (truthy_path finished); open_holds p H; simpl; repeat split; assumption.
Qed.

Lemma setState_holds newS p : holds_tracks p -> holds_tracks (setState newS p).
Proof.
  intros H. unfold setState.
  set (p2 := fold_left _ _ _).
  assert (H2 : holds_tracks p2).
  { apply emit_holds. revert H. now apply frame_holds. }
  destruct (negb (AudioPlayerStatus_eqb (status p) newS)); [|assumption].
  destruct newS; try assumption. now apply onIdle_holds.
Qed.

Lemma set_awaiting_holds l p :
  holds_tracks p -> Forall of_tracks l -> holds_tracks (set_awaiting l p).
Proof. intros H Hl. open_holds p H. simpl. repeat split; assumption. Qed.

Lemma now_playing_holds c l p :
  holds_tracks p -> of_tracks c ->
  holds_tracks (set_listeners l (set_currentlyPlaying (Some c) p)).
Proof.
  intros H Hcur. open_holds p H. simpl. repeat split; try assumption.
  intros c' E. now inversion E; subst.
Qed.

Lemma step_holds ev p p' :
  holds_tracks p -> step ev p = Some p' ->
  (forall ts', ev <> EvPush ts') -> holds_tracks p'.
Proof.
  intros H. unfold step.
  destruct (is_task ev && negb (no_inflight p)); [discriminate|].
  destruct ev; intros E Hne.
  - inversion E; subst. destruct (ensureConnection_frame ok p) as (_ & Hv & Hi & Hq).
    revert H. apply frame_holds; try assumption;
      unfold ensureConnection; destruct (connection p) as [[]|]; try destruct ok;
      reflexivity.
  - now contradiction (Hne ts0).
  - inversion E; subst. unfold play_tail.
    destruct (_ && _); [now apply playNext_holds | assumption].
  - inversion E; subst. revert H. now apply frame_holds.
  - inversion E; subst. unfold stop, audioPlayer_stop.
    open_holds p H. destruct st; simpl; repeat split; try assumption; constructor.
  - inversion E; subst. unfold disconnect, stop, audioPlayer_stop.
    open_holds p H. destruct st; simpl; repeat split; try assumption; constructor.
  - inversion E; subst. unfold skip, audioPlayer_stop.
    destruct (status p); try assumption; revert H; now apply frame_holds.
  - destruct (nth_error (timers p) i); [|discriminate].
    inversion E; subst. apply playNext_holds. revert H. now apply frame_holds.
  - destruct (status p); try discriminate.
    inversion E; subst. now apply setState_holds.
  - destruct (status p); try discriminate; inversion E; subst;
      unfold audioPlayer_end; apply setState_holds; revert H; now apply frame_holds.
  - destruct (status p); try discriminate; inversion E; subst;
      open_holds p H; unfold onError, setTimeout; simpl;
      repeat split; try assumption; now apply shift_Forall.
  - inversion E; subst. unfold onDisconnected.
    destruct (connection p); [destruct recovered|]; try assumption;
      revert H; now apply frame_holds.
  - destruct (inflight p) as [|current rest] eqn:Hin; [discriminate|].
    unfold playNext_downloaded in E. rewrite Hin in E.
    assert (Hcur : of_tracks current /\ Forall of_tracks rest).
    { destruct H as (_ & Hi & _). rewrite Hin in Hi. now inversion Hi. }
    destruct Hcur as [Hcur Hrest].
    assert (H0 : holds_tracks (set_inflight rest p))
      by (open_holds p H; simpl; repeat split; assumption).
    destruct (Pipeline.promise _); [discriminate| |].
    + assert (H1 : holds_tracks (set_downloading false (set_inflight rest p)))
        by (revert H0; now apply frame_holds).
      destruct (connection _); inversion E; subst.
      * apply set_awaiting_holds; [assumption|].
        apply Forall_app. split; [apply H1 | now repeat constructor].
      * now apply playNext_catch_holds.
    + inversion E; subst. now apply playNext_catch_holds.
  - unfold playNext_ready in E.
    destruct (nth_error (awaiting p) i) as [current|] eqn:Hn; [|discriminate].
    assert (Hcur : of_tracks current).
    { destruct H as (_ & _ & Ha & _). rewrite Forall_forall in Ha.
      apply Ha. eapply nth_error_In; eassumption. }
    assert (H0 : holds_tracks (set_awaiting (remove_nth i (awaiting p)) p)).
    { open_holds p H. simpl. repeat split; try assumption.
      now apply remove_nth_Forall. }
    destruct ok; inversion E; subst; [|now apply playNext_catch_holds].
    rewrite audioPlayer_play_eq. apply now_playing_holds; [|assumption].
    revert H0. now apply frame_holds.
Qed.

End OnlyRequested.

Lemma holds_tracks_more (ts ts' : list Track) (p : MusicPlayer) :
  holds_tracks ts p -> holds_tracks (ts ++ ts') (enqueue ts' p).
Proof.
  assert (Hin : forall c, of_tracks ts c -> of_tracks (ts ++ ts') c).
  { unfold of_tracks. intros c Hc. rewrite map_app. apply in_or_app. now left. }
  intros (Hq & Hi & Ha & Hc & Hv).
  destruct p as [q0 conn dl cp rp st sr ls tm infl aw inv unl].
  unfold holds_tracks, enqueue, push. simpl in *.
  repeat split.
  - apply Forall_app. split.
    + eapply Forall_impl; [exact Hin | exact Hq].
    + apply Forall_forall. intros c Hc'. unfold of_tracks.
      rewrite map_app. apply in_or_app. now right.
  - eapply Forall_impl; [exact Hin | exact Hi].
  - eapply Forall_impl; [exact Hin | exact Ha].
  - intros c Ec. apply Hin. now apply Hc.
  - eapply Forall_impl; [|exact Hv]. intros u Hu. simpl in Hu.
    rewrite map_app. apply in_or_app. now left.
Qed.

Lemma run_holds (evs : list Event) :
  forall ts p p',
    holds_tracks ts p -> run evs p = Some p' -> holds_tracks (ts ++ requested evs) p'.
Proof.
  induction evs as [|ev evs IH]; intros ts p p' H Hrun; simpl in Hrun.
  - inversion Hrun; subst. simpl. now rewrite app_nil_r.
  - destruct (step ev p) as [p1|] eqn:Hstep; [|discriminate].
    assert (H1 : holds_tracks (ts ++ match ev with EvPush ts' => ts' | _ => [] end) p1).
    { destruct ev;
        try (rewrite app_nil_r; eapply step_holds; [exact H | exact Hstep | discriminate]).
      unfold step in Hstep. simpl in Hstep. inversion Hstep; subst.
      now apply holds_tracks_more. }
    specialize (IH _ _ _ H1 Hrun).
    unfold requested in *. simpl. now rewrite app_assoc.
Qed.

(** X16.  Whatever happens to a player, every URL given to [downloadVideo]
    is the URL of a track that some request put into the queue before, and
    the current track is such a track. *)
Theorem only_requested_tracks_downloaded (evs : list Event) (p : MusicPlayer) :
  run evs init = Some p ->
  (forall u, In u (invoked p) ->
     exists t, In t (requested evs) /\ u = Some (t_url t)) /\
  (forall c, currentlyPlaying p = Some c ->
     exists t, In t (requested evs) /\ c = itemOf t).
Proof.
  intros Hrun.
  assert (H0 : holds_tracks [] init).
  { unfold holds_tracks. simpl. repeat split; try constructor. discriminate. }
  destruct (run_holds _ H0 Hrun) as (_ & _ & _ & Hc & Hv). simpl in *.
  split.
  - intros u Hu. rewrite Forall_forall in Hv. specialize (Hv u Hu).
    apply in_map_iff in Hv. destruct Hv as (t & <- & Ht). now exists t.
  - intros c Ec. specialize (Hc c Ec). unfold of_tracks in Hc.
    apply in_map_iff in Hc. destruct Hc as (t & <- & Ht). now exists t.
Qed.

Lemma only_requested_tracks_downloaded_witness :
  run (start tA ++ [EvPush [tB; tC]]) init = Some playing_A_queued_BC /\
  exists t, In t [tA; tB; tC] /\ itemOf tA = itemOf t.
Proof.
  split; [apply playing_A_queued_BC_run|].
  destruct (@only_requested_tracks_downloaded (start tA ++ [EvPush [tB; tC]])
              playing_A_queued_BC playing_A_queued_BC_run) as [_ Hc].
  exact (Hc (itemOf tA) eq_refl).
Defined.

(** *** The end of a track under repeat [single] *)

Lemma playNext_single (p : MusicPlayer) (c : QueueItem) :
  repeat p = single -> currentlyPlaying p = Some c ->
  queue (fst (playNext p)) = queue p /\
  listeners (fst (playNext p)) = listeners p /\
  invoked (fst (playNext p)) = invoked p ++ match queue p with
                                            | [] => []
                                            | _ :: _ => [url c]
                                            end /\
  currentlyPlaying (fst (playNext p)) = Some c.
Proof.
  intros Hr Hc. unfold playNext, dequeue. rewrite Hr, Hc.
  destruct (queue p) as [|x rest] eqn:Hq; cbn [List.length Nat.eqb andb negb
                                               RepeatMode_eqb fst].
  - rewrite app_nil_r. repeat split; assumption.
  - destruct p as [q0 conn dl cp rp st sr ls tm infl aw inv unl]; cbn in *.
    repeat split; assumption.
Qed.

(** X17.  Under repeat [single], when the player becomes idle with [k]
    listeners of [playNext] on it, the queue loses its first [k + 1] items
    to the listeners, and the current track is downloaded again only if an
    item is left after that: a track alone is not repeated, and each
    repetition costs queued tracks. *)
Theorem completion_under_single (p : MusicPlayer) (c : QueueItem) :
  status p <> Idle -> repeat p = single -> currentlyPlaying p = Some c ->
  let k := List.length (listeners p) in
  let p' := audioPlayer_end p in
  queue p' = skipn (k + 1) (queue p) /\
  listeners p' = [] /\
  invoked p' = invoked p ++ match skipn (k + 1) (queue p) with
                            | [] => []
                            | _ :: _ => [url c]
                            end /\
  currentlyPlaying p' = Some c.
Proof.
  intros Hs Hr Hc k p'. subst p'. rewrite audioPlayer_end_eq by assumption. fold k.
  unfold onIdle. cbn [queue set_timers set_queue].
  destruct (shift (skipn k (queue p))) as [finished rest] eqn:Hsh.
  assert (Hrest : rest = skipn (k + 1) (queue p)).
  { replace (k + 1) with (1 + k) by lia.
    rewrite <- skipn_skipn, <- shift_skipn, Hsh. reflexivity. }
  match goal with |- context [playNext ?s] => set (p2 := s) end.
  assert (H2 : repeat p2 = single /\ currentlyPlaying p2 = Some c /\
               queue p2 = rest /\ listeners p2 = [] /\ invoked p2 = invoked p).
  { subst p2. destruct (truthy_path finished); cbn; repeat split; assumption. }
  destruct H2 as (R2 & C2 & Q2 & L2 & V2).
  destruct (playNext_single p2 R2 C2) as (Q & L & V & C).
  rewrite Q, L, V, C, Q2, L2, V2, Hrest. repeat split.
Qed.

Lemma completion_under_single_witness :
  invoked (audioPlayer_end single_A_queued_B) = [Some (t_url tA)] /\
  queue (audioPlayer_end single_A_queued_B) = [].
Proof.
  destruct (@completion_under_single single_A_queued_B (itemOf tA))
    as (Hq & _ & Hv & _); [discriminate | reflexivity | reflexivity |].
  split; [exact Hv | exact Hq].
Defined.
